(** * graphql-anywhere: the execution engine of [src/index.ts]

    A shallow embedding of [graphql], [executeSelectionSet], [executeField],
    [executeSubSelectedArray] and [merge], and the properties of the
    natural-language specification that concern them.

    Modelling decisions.
    - JavaScript values are the JSON-like values of the specification's value
      model plus [undefined].  Objects and arrays live in a heap and are
      referred to by location, so that [===] on them is identity.  Numbers are
      integers (no NaN).  Property reads see own properties only; members
      inherited from a prototype are outside the model, except that the
      method call [v.hasOwnProperty(k)] of [merge] is one: an own property of
      that name shadows the inherited method and cannot be called.
    - An object is the list of its own enumerable properties in enumeration
      order; a property added to an object goes last (keys are taken not to be
      array indices, as GraphQL names never are).  Assigning a property onto
      a list leaves the value model.
    - Where a property is stated for particular keys, [plain_key] says which
      the model is exact for.
    - Effects are explicit: a state (heap and ghost trace) is threaded through
      an error monad.  The trace records resolver invocations and field
      outcomes; the engine never reads it.
    - The caller's resolver and result mapper take the heap and return a value
      and a heap, or raise; the fragment matcher reads the heap and answers.
      The arguments object and the info descriptor of a resolver call are
      passed as plain data.
    - The module is strict code: assigning a property on a primitive raises a
      [TypeError].  [Object.keys] of a number or boolean is empty.
    - The JavaScript call stack is finite.  The recursive functions take the
      remaining stack depth, and exhausting it is the [RangeError] that
      JavaScript raises. *)

From Stdlib Require Import ZArith Lia.
From stdpp Require Import base tactics option list strings pretty.

Open Scope string_scope.
Open Scope list_scope.

(** ** Values and the heap *)

Abbreviation loc := nat (only parsing).

Inductive val :=
| VUndefined
| VNull
| VBool (b : bool)
| VNum (n : Z)
| VStr (s : string)
| VRef (l : loc).

#[global] Instance val_eq_dec : EqDecision val.
Proof. solve_decision. Defined.

Inductive cell :=
| CObj (props : list (string * val))
| CArr (items : list val).

Abbreviation heap := (list cell).

(** [a === b] *)
Definition strict_eq (a b : val) : bool := bool_decide (a = b).

(** [x == null] *)
Definition nullish (v : val) : bool :=
  match v with VUndefined | VNull => true | _ => false end.

(** ToBoolean, as used by [previousResult && ...] and [previousResult ? ... : ...] *)
Definition truthy (v : val) : bool :=
  match v with
  | VUndefined | VNull => false
  | VBool b => b
  | VNum n => negb (Z.eqb n 0)
  | VStr s => negb (bool_decide (s = ""))
  | VRef _ => true
  end.

(** A location nothing was allocated at reads as an empty object. *)
Definition heap_cell (h : heap) (l : loc) : cell := default (CObj []) (h !! l).

Fixpoint alist_lookup (k : string) (ps : list (string * val)) : option val :=
  match ps with
  | [] => None
  | (k', v) :: ps' => if decide (k = k') then Some v else alist_lookup k ps'
  end.

Fixpoint alist_set (k : string) (v : val) (ps : list (string * val))
  : list (string * val) :=
  match ps with
  | [] => [(k, v)]
  | (k', v') :: ps' =>
      if decide (k = k') then (k, v) :: ps' else (k', v') :: alist_set k v ps'
  end.

(** The index an array-index key denotes in a sequence of [n] elements. *)
Definition index_of_key (n : nat) (k : string) : option nat :=
  head (filter (λ i, pretty i = k) (seq 0 n)).

Definition index_keys (n : nat) : list string := pretty <$> seq 0 n.

Definition Array_isArray (h : heap) (v : val) : bool :=
  match v with
  | VRef l => match heap_cell h l with CArr _ => true | CObj _ => false end
  | _ => false
  end.

(** [v[k]], for [v] neither [null] nor [undefined] (the source reads a
    property only under a truthiness guard or for an enumerated key). *)
Definition get_prop (h : heap) (v : val) (k : string) : val :=
  match v with
  | VRef l =>
      match heap_cell h l with
      | CObj ps => default VUndefined (alist_lookup k ps)
      | CArr items =>
          if decide (k = "length") then VNum (Z.of_nat (length items))
          else match index_of_key (length items) k with
               | Some i => default VUndefined (items !! i)
               | None => VUndefined
               end
      end
  | VStr s =>
      if decide (k = "length") then VNum (Z.of_nat (String.length s))
      else match index_of_key (String.length s) k with
           | Some i => VStr (String.substring i 1 s)
           | None => VUndefined
           end
  | _ => VUndefined
  end.

(** [v[i]] for a number [i]: the key is the decimal numeral of [i]. *)
Definition get_index (h : heap) (v : val) (i : nat) : val :=
  get_prop h v (pretty i).

(** [v.hasOwnProperty(k)], for [v] neither [null] nor [undefined]. *)
Definition hasOwnProperty (h : heap) (v : val) (k : string) : bool :=
  match v with
  | VRef l =>
      match heap_cell h l with
      | CObj ps => bool_decide (is_Some (alist_lookup k ps))
      | CArr items =>
          bool_decide (k = "length")
          || bool_decide (is_Some (index_of_key (length items) k))
      end
  | VStr s =>
      bool_decide (k = "length")
      || bool_decide (is_Some (index_of_key (String.length s) k))
  | _ => false
  end.

(** ** Errors, states and the monad *)

Inductive error :=
| NoFragmentNamed (name : string)
    (* throw new Error(`No fragment named ${selection.name.value}`) *)
| TypeError
    (* a property read, write or enumeration the language refuses *)
| RangeError
    (* the call stack is exhausted *)
| Thrown (v : val)
    (* raised by a callback of the caller *)
| Unmodelled.
    (* the program leaves the value model (a named property on an array) *)

Record ExecInfo := { isLeaf : bool; resultKey : string }.

(** Ghost events. *)
Inductive event :=
| EvResolve (fieldName : string) (rootValue : val) (args : list (string * val))
            (info : ExecInfo)
| EvField (previousResult : val) (resultFieldKey : string)
          (fieldResult : val) (previousSlot : val).

Record state := mkState { st_heap : heap; st_trace : list event }.

Inductive result (S A : Type) :=
| Ok (a : A) (s : S)
| Err (e : error).
Arguments Ok {S A} a s.
Arguments Err {S A} e.

Definition M (A : Type) := state → result state A.

(** What the caller's callbacks may do: read the heap, change it, raise. *)
Definition callback (A : Type) := heap → result heap A.

Definition ret {A} (a : A) : M A := λ st, Ok a st.

Definition bind {A B} (m : M A) (k : A → M B) : M B :=
  λ st, match m st with
        | Ok a st' => k a st'
        | Err e => Err e
        end.

Definition throw {A} (e : error) : M A := λ _, Err e.

Notation "'let*' x := m 'in' k" := (bind m (λ x, k))
  (at level 10, x name, m at level 100, k at level 200).
Notation "m ;;; k" := (bind m (λ _, k))
  (at level 100, k at level 200, right associativity).

Definition get_heap : M heap := λ st, Ok (st_heap st) st.

Definition log (e : event) : M unit :=
  λ st, Ok tt (mkState (st_heap st) (st_trace st ++ [e])).

Definition call {A} (f : callback A) : M A :=
  λ st, match f (st_heap st) with
        | Ok a h' => Ok a (mkState h' (st_trace st))
        | Err e => Err e
        end.

(** A fresh object or array. *)
Definition alloc (c : cell) : M loc :=
  λ st, Ok (length (st_heap st)) (mkState (st_heap st ++ [c]) (st_trace st)).

(** [Object.keys(v)] *)
Definition Object_keys (v : val) : M (list string) :=
  λ st, match v with
        | VUndefined | VNull => Err TypeError
        | VBool _ | VNum _ => Ok [] st
        | VStr s => Ok (index_keys (String.length s)) st
        | VRef l =>
            match heap_cell (st_heap st) l with
            | CObj ps => Ok (ps.*1) st
            | CArr items => Ok (index_keys (length items)) st
            end
        end.

(** [dest[k] = v] in strict mode. *)
Definition set_prop (dest : val) (k : string) (v : val) : M unit :=
  λ st, match dest with
        | VRef l =>
            match st_heap st !! l with
            | Some (CObj ps) =>
                Ok tt (mkState (<[l := CObj (alist_set k v ps)]> (st_heap st))
                               (st_trace st))
            | _ => Err Unmodelled
            end
        | _ => Err TypeError
        end.

(** [list.forEach(f)] for a callback that updates one captured variable. *)
Fixpoint forEach {A B} (f : A → B → M B) (l : list A) (b : B) : M B :=
  match l with
  | [] => ret b
  | x :: l' => let* b' := f x b in forEach f l' b'
  end.

Definition forEach_ {A} (f : A → M unit) (l : list A) : M unit :=
  forEach (λ x _, f x) l tt.

(** ** The selection tree *)

(** The [if] argument of a directive: a Boolean literal or a variable. *)
Inductive condition :=
| CondLiteral (b : bool)
| CondVariable (name : string).

Record directive := { directive_name : string; directive_if : condition }.

(** A field argument: a literal or a variable reference. *)
Inductive argument :=
| ArgLiteral (v : val)
| ArgVariable (name : string).

#[warnings="-register-all"]
Inductive selection :=
| IsField (field : Field)
| IsInlineFragment (typeCondition : option string)
                   (directives : list directive)
                   (selectionSet : list selection)
| IsFragmentSpread (name : string) (directives : list directive)
with Field :=
| mkField (name : string) (alias : option string)
          (arguments : list (string * argument))
          (directives : list directive)
          (selectionSet : option (list selection)).

Definition SelectionSet := list selection.

Definition field_name (f : Field) : string :=
  match f with mkField n _ _ _ _ => n end.
Definition field_alias (f : Field) : option string :=
  match f with mkField _ a _ _ _ => a end.
Definition field_arguments (f : Field) : list (string * argument) :=
  match f with mkField _ _ a _ _ => a end.
Definition field_directives (f : Field) : list directive :=
  match f with mkField _ _ _ d _ => d end.
Definition field_selectionSet (f : Field) : option SelectionSet :=
  match f with mkField _ _ _ _ s => s end.

Definition selection_directives (s : selection) : list directive :=
  match s with
  | IsField f => field_directives f
  | IsInlineFragment _ ds _ => ds
  | IsFragmentSpread _ ds => ds
  end.

Record FragmentDefinition := {
  fragment_name : string;
  fragment_typeCondition : string;
  fragment_selectionSet : SelectionSet;
}.

Definition VariableMap := list (string * val).

Definition FragmentMap := list (string * FragmentDefinition).

Definition Resolver :=
  string → val → list (string * val) → val → ExecInfo → callback val.
Definition ResultMapper := val → val → callback val.
Definition FragmentMatcher := val → string → val → heap → bool.

Record ExecContext := {
  fragmentMap : FragmentMap;
  contextValue : val;
  variableValues : VariableMap;
  resultMapper : option ResultMapper;
  resolver : Resolver;
  fragmentMatcher : FragmentMatcher;
}.

Record ExecOptions := {
  opt_resultMapper : option ResultMapper;
  opt_fragmentMatcher : option FragmentMatcher;
  opt_previousResult : val;   (* [VUndefined] when the option is not given *)
}.

Record Document := {
  mainDefinition : SelectionSet;
  fragmentDefinitions : list FragmentDefinition;
}.

(** ** Collaborators imported by [index.ts] *)

Definition variable_value (variables : VariableMap) (x : string) : val :=
  default VUndefined (alist_lookup x variables).

(** Modelled from the spec: [shouldInclude] of [./directives] (section 4.1).
    A directive named skip whose argument is true excludes the selection, one
    named include whose argument is false excludes it, any other directive is
    ignored; a variable argument is read from the variable bindings. *)
Definition directive_allows (variables : VariableMap) (d : directive) : bool :=
  let b := match directive_if d with
           | CondLiteral b => b
           | CondVariable x => truthy (variable_value variables x)
           end in
  if decide (directive_name d = "skip") then negb b
  else if decide (directive_name d = "include") then b
  else true.

Definition shouldInclude (s : selection) (variables : VariableMap) : bool :=
  forallb (directive_allows variables) (selection_directives s).

(** Modelled from the spec: [resultKeyNameFromField] of [./storeUtils]
    (section 3): the alias if there is one, else the field name. *)
Definition resultKeyNameFromField (f : Field) : string :=
  default (field_name f) (field_alias f).

(** Modelled from the spec: [argumentsObjectFromField] of [./storeUtils]
    (section 4.4, step 1): literals pass through, variable references are
    replaced by their binding. *)
Definition argumentsObjectFromField (f : Field) (variables : VariableMap)
  : list (string * val) :=
  (λ '(k, a), (k, match a with
                  | ArgLiteral v => v
                  | ArgVariable x => variable_value variables x
                  end)) <$> field_arguments f.

(** Modelled from the spec: [createFragmentMap] of [./getFromAST]
    (section 4.2): the mapping from fragment name to definition. *)
Definition createFragmentMap (fragments : list FragmentDefinition) : FragmentMap :=
  (λ d, (fragment_name d, d)) <$> fragments.

Fixpoint fragment_lookup (name : string) (m : FragmentMap)
  : option FragmentDefinition :=
  match m with
  | [] => None
  | (n, d) :: m' => if decide (name = n) then Some d else fragment_lookup name m'
  end.

(** ** [merge] *)

(** The test that opens [merge]: [src] is [null], [undefined], a string, a
    number, a boolean or an array. *)
Definition overrides (h : heap) (src : val) : bool :=
  match src with
  | VRef _ => Array_isArray h src
  | _ => true
  end.

(** [v.hasOwnProperty(k)] as [merge] writes it: a method call.  The method is
    looked up on [v] itself, where an own property named [hasOwnProperty]
    shadows the one every object inherits; the values of this model are data,
    none of them can be called. *)
Definition call_hasOwnProperty (v : val) (k : string) : M bool :=
  λ st, if nullish v then Err TypeError
        else if hasOwnProperty (st_heap st) v "hasOwnProperty"
             then Err TypeError
             else Ok (hasOwnProperty (st_heap st) v k) st.

Fixpoint merge (depth : nat) (dest src : val) : M val :=
  match depth with
  | 0 => throw RangeError
  | S d =>
      let* h := get_heap in
      if overrides h src then
        (* These types just override whatever was in dest *)
        ret src
      else
        (* Merge sub-objects *)
        let* destKeys := Object_keys dest in
        forEach_ (λ destKey,
          let* has := call_hasOwnProperty src destKey in
          let* h := get_heap in
          if has then
            merge d (get_prop h dest destKey) (get_prop h src destKey);;; ret tt
          else ret tt) destKeys;;;
        (* Add props only on src *)
        let* srcKeys := Object_keys src in
        forEach_ (λ srcKey,
          let* has := call_hasOwnProperty dest srcKey in
          let* h := get_heap in
          if has then ret tt
          else set_prop dest srcKey (get_prop h src srcKey)) srcKeys;;;
        ret VUndefined
  end.

(** ** The engine *)

(** The descriptor [executeField] hands to the resolver. *)
Definition field_info (field : Field) : ExecInfo :=
  {| isLeaf := bool_decide (field_selectionSet field = None);
     resultKey := resultKeyNameFromField field |}.

(** [previousResult ? previousResult[key] : null] *)
Definition previous_slot (h : heap) (previousResult : val) (key : string) : val :=
  if truthy previousResult then get_prop h previousResult key else VNull.

(** The length of the array [result.map] walks, read when the walk starts. *)
Definition array_length (h : heap) (v : val) : nat :=
  match v with
  | VRef l => match heap_cell h l with CArr items => length items | CObj _ => 0 end
  | _ => 0
  end.

(** The element [result.map] hands to its callback at index [i]; a walk over
    an index that is no longer there leaves the value model. *)
Definition array_item (i : nat) (v : val) : M val :=
  λ st, match v with
        | VRef l =>
            match heap_cell (st_heap st) l with
            | CArr items =>
                match items !! i with
                | Some x => Ok x st
                | None => Err Unmodelled
                end
            | CObj _ => Err Unmodelled
            end
        | _ => Err Unmodelled
        end.

Section Callbacks.
(** The functions the closures below call, at the stack depth that is left. *)
Variable executeSelectionSet :
  SelectionSet → val → val → ExecContext → M val.
Variable executeField : Field → val → val → ExecContext → M val.
Variable executeSubSelectedArray : Field → val → val → ExecContext → M val.
Variable merge_ : val → val → M val.

(** What the body below does with a fragment once it has one (an inline
    fragment itself, or the definition a spread names): from
    [fragment.typeCondition.name.value] on. *)
Definition fragment_callback (rootValue previousResult : val)
    (execContext : ExecContext) (result : loc) (resultModified : bool)
    (fragment_typeCondition : option string)
    (fragment_selectionSet : SelectionSet) : M bool :=
  let* typeCondition :=
    match fragment_typeCondition with
    | Some t => ret t
    | None => throw TypeError
    end in
  let* h := get_heap in
  if fragmentMatcher execContext rootValue typeCondition
                     (contextValue execContext) h
  then
    let* fragmentResult :=
      executeSelectionSet fragment_selectionSet rootValue previousResult
                          execContext in
    let resultModified :=
      if negb (strict_eq fragmentResult previousResult)
      then true else resultModified in
    merge_ (VRef result) fragmentResult;;;
    ret resultModified
  else ret resultModified.

(** The body of [selectionSet.selections.forEach((selection) => ...)] in
    [executeSelectionSet]; the captured [resultModified] is passed along. *)
Definition selection_callback (rootValue previousResult : val)
    (execContext : ExecContext) (result : loc)
    (selection : selection) (resultModified : bool) : M bool :=
  if negb (shouldInclude selection (variableValues execContext)) then
    (* Skip this entirely *)
    ret resultModified
  else
    match selection with
    | IsField field =>
        let* fieldResult :=
          executeField field rootValue previousResult execContext in
        let resultFieldKey := resultKeyNameFromField field in
        let* h := get_heap in
        log (EvField previousResult resultFieldKey fieldResult
                     (get_prop h previousResult resultFieldKey));;;
        let resultModified :=
          if truthy previousResult
             && negb (strict_eq fieldResult
                                (get_prop h previousResult resultFieldKey))
          then true else resultModified in
        (if negb (strict_eq fieldResult VUndefined)
         then set_prop (VRef result) resultFieldKey fieldResult
         else ret tt);;;
        ret resultModified
    | IsInlineFragment typeCondition _ selectionSet =>
        fragment_callback rootValue previousResult execContext result
                          resultModified typeCondition selectionSet
    | IsFragmentSpread name _ =>
        (* This is a named fragment *)
        match fragment_lookup name (fragmentMap execContext) with
        | Some fragment =>
            fragment_callback rootValue previousResult execContext result
                              resultModified
                              (Some (fragment_typeCondition fragment))
                              (fragment_selectionSet fragment)
        | None => throw (NoFragmentNamed name)
        end
    end.

(** The body of [result.map((item, i) => ...)] in [executeSubSelectedArray];
    the pair carries the elements produced so far and [resultModified]. *)
Definition item_callback (field : Field) (result previousResult : val)
    (execContext : ExecContext)
    (i : nat) (acc : list val * bool) : M (list val * bool) :=
  let* item := array_item i result in
  (* null value in array *)
  if strict_eq item VNull then ret (acc.1 ++ [VNull], acc.2)
  else
    let* h := get_heap in
    if Array_isArray h item then
      (* This is a nested array, recurse *)
      let* nextItem :=
        executeSubSelectedArray field item
          (if truthy previousResult then get_index h previousResult i
           else VNull)
          execContext in
      ret (acc.1 ++ [nextItem], acc.2)
    else
      (* This is an object, run the selection set on it *)
      let* selectionSet :=
        match field_selectionSet field with
        | Some s => ret s
        | None => throw TypeError
        end in
      let* nextItem :=
        executeSelectionSet selectionSet item
          (if truthy previousResult then get_index h previousResult i
           else VNull)
          execContext in
      let* h := get_heap in
      let resultModified :=
        if truthy previousResult
           && negb (strict_eq nextItem (get_index h previousResult i))
        then true else acc.2 in
      ret (acc.1 ++ [nextItem], resultModified).
End Callbacks.

Fixpoint executeSelectionSet (depth : nat) (selectionSet : SelectionSet)
    (rootValue previousResult : val) (execContext : ExecContext)
    {struct depth} : M val :=
  match depth with
  | 0 => throw RangeError
  | S d =>
      let resultModified := nullish previousResult in
      let* result := alloc (CObj []) in
      let* resultModified :=
        forEach (selection_callback (executeSelectionSet d) (executeField d)
                                    (merge d) rootValue previousResult
                                    execContext result)
                selectionSet resultModified in
      match resultMapper execContext with
      | Some mapper => call (mapper (VRef result) rootValue)
      | None =>
          (* If the result was not modified this entire time, just return the
             previous result so we may maintain referential equality. *)
          ret (if resultModified then VRef result else previousResult)
      end
  end

with executeField (depth : nat) (field : Field)
    (rootValue previousResult : val) (execContext : ExecContext)
    {struct depth} : M val :=
  match depth with
  | 0 => throw RangeError
  | S d =>
      let fieldName := field_name field in
      let args := argumentsObjectFromField field (variableValues execContext) in
      let resultKey := resultKeyNameFromField field in
      let info := field_info field in
      log (EvResolve fieldName rootValue args info);;;
      let* result :=
        call (resolver execContext fieldName rootValue args
                       (contextValue execContext) info) in
      match field_selectionSet field with
      | None =>
          (* Handle all scalar types here *)
          ret result
      | Some selectionSet =>
          if nullish result then
            (* Basically any field in a GraphQL response can be null, or missing *)
            ret result
          else
            let* h := get_heap in
            if Array_isArray h result then
              executeSubSelectedArray d field result
                (previous_slot h previousResult resultKey) execContext
            else
              (* Returned value is an object, and the query has a
                 sub-selection. Recurse. *)
              executeSelectionSet d selectionSet result
                (previous_slot h previousResult resultKey) execContext
      end
  end

with executeSubSelectedArray (depth : nat) (field : Field)
    (result previousResult : val) (execContext : ExecContext)
    {struct depth} : M val :=
  match depth with
  | 0 => throw RangeError
  | S d =>
      let resultModified := nullish previousResult in
      let* h := get_heap in
      let* out :=
        forEach (item_callback (executeSelectionSet d)
                               (executeSubSelectedArray d)
                               field result previousResult execContext)
                (seq 0 (array_length h result)) ([], resultModified) in
      let* nextResult := alloc (CArr out.1) in
      ret (if out.2 then VRef nextResult else previousResult)
  end.

(** The default export. *)
Definition graphql (depth : nat) (resolver : Resolver) (document : Document)
    (rootValue contextValue : val) (variableValues : VariableMap)
    (execOptions : ExecOptions) : M val :=
  let fragmentMap := createFragmentMap (fragmentDefinitions document) in
  let resultMapper := opt_resultMapper execOptions in
  (* Default matcher always matches all fragments *)
  let fragmentMatcher :=
    default (λ _ _ _ _, true) (opt_fragmentMatcher execOptions) in
  let previousResult :=
    match opt_previousResult execOptions with
    | VUndefined => VNull
    | v => v
    end in
  let execContext :=
    {| fragmentMap := fragmentMap;
       contextValue := contextValue;
       variableValues := variableValues;
       resultMapper := resultMapper;
       resolver := resolver;
       fragmentMatcher := fragmentMatcher |} in
  executeSelectionSet depth (mainDefinition document) rootValue previousResult
                      execContext.

(** ** Notions the properties are stated with *)

(** The type condition the engine reads off a fragment selection: that of an
    inline fragment, or of the definition a spread names. *)
Definition selection_typeCondition (ctx : ExecContext) (s : selection)
  : option string :=
  match s with
  | IsField _ => None
  | IsInlineFragment typeCondition _ _ => typeCondition
  | IsFragmentSpread name _ =>
      fragment_typeCondition <$> fragment_lookup name (fragmentMap ctx)
  end.

(** The events an evaluation from [st] to [st'] added to the trace. *)
Definition new_events (st st' : state) : list event :=
  drop (length (st_trace st)) (st_trace st').

(** The trace only grows. *)
Definition trace_extends (st st' : state) : Prop :=
  ∃ evs, st_trace st' = st_trace st ++ evs.

(** A field outcome recorded for the level of [previousResult] is the value
    [previousResult] has under the field's result key, by [===]. *)
Definition field_identical (previousResult : val) (e : event) : bool :=
  match e with
  | EvField p _ fieldResult previousSlot =>
      if decide (p = previousResult) then strict_eq fieldResult previousSlot
      else true
  | EvResolve _ _ _ _ => true
  end.

Definition fields_identical (previousResult : val) (evs : list event) : bool :=
  forallb (field_identical previousResult) evs.

(** [c'] has everything [c] has: an object keeps its properties with their
    values and may have more, an array is the same array. *)
Definition cell_extends (c c' : cell) : Prop :=
  match c, c' with
  | CObj ps, CObj ps' =>
      ∀ k v, alist_lookup k ps = Some v → alist_lookup k ps' = Some v
  | CArr items, CArr items' => items = items'
  | _, _ => False
  end.

(** Every object and array of [h] is still there in [h'], extended. *)
Definition heap_extends (h h' : heap) : Prop :=
  ∀ l c, h !! l = Some c → ∃ c', h' !! l = Some c' ∧ cell_extends c c'.

(** The same for the locations below [n], from a heap that has them all. *)
Definition preserves_below (n : nat) (st st' : state) : Prop :=
  (n ≤ length (st_heap st))%nat →
  (n ≤ length (st_heap st'))%nat
  ∧ ∀ l c, (l < n)%nat → st_heap st !! l = Some c →
           ∃ c', st_heap st' !! l = Some c' ∧ cell_extends c c'.

(** A callback that leaves what is on the heap in place: it may allocate and
    add properties, not remove or change any. *)
Definition callback_preserves {A} (f : callback A) : Prop :=
  ∀ h a h', f h = Ok a h' → heap_extends h h'.

(** The callbacks of a context all do. *)
Definition callbacks_preserve (ctx : ExecContext) : Prop :=
  (∀ fieldName rootValue args info,
     callback_preserves
       (resolver ctx fieldName rootValue args (contextValue ctx) info))
  ∧ (∀ mapper acc rootValue,
       resultMapper ctx = Some mapper →
       callback_preserves (mapper acc rootValue)).

(** ** Notions for selection sets of leaf fields *)

Definition is_resolve (e : event) : bool :=
  match e with EvResolve _ _ _ _ => true | _ => false end.

(** The trace entry of the resolver call [executeField] makes for a field. *)
Definition resolve_event (ctx : ExecContext) (rootValue : val) (f : Field)
  : event :=
  EvResolve (field_name f) rootValue
            (argumentsObjectFromField f (variableValues ctx)) (field_info f).

Definition included (ctx : ExecContext) (f : Field) : bool :=
  shouldInclude (IsField f) (variableValues ctx).

(** The properties a walk over leaf fields leaves in the accumulator, when
    [value f] is what the resolver returns for [f]: each included field whose
    value is not [undefined] is stored under its result key, in order. *)
Definition stored_fields (ctx : ExecContext) (value : Field → val)
    (fields : list Field) (ps : list (string * val)) : list (string * val) :=
  foldl (λ ps f,
           if included ctx f && negb (strict_eq (value f) VUndefined)
           then alist_set (resultKeyNameFromField f) (value f) ps
           else ps)
        ps fields.

(** Some included field has a value that is not the one [previousResult]
    holds under its result key. *)
Definition fields_changed (ctx : ExecContext) (value : Field → val) (h : heap)
    (previousResult : val) (fields : list Field) : bool :=
  existsb (λ f, included ctx f
                && negb (strict_eq (value f)
                           (get_prop h previousResult
                                     (resultKeyNameFromField f))))
          fields.

(** The trace of that walk. *)
Definition flat_events (ctx : ExecContext) (value : Field → val) (h : heap)
    (rootValue previousResult : val) (fields : list Field) : list event :=
  flat_map (λ f,
              if included ctx f
              then [resolve_event ctx rootValue f;
                    EvField previousResult (resultKeyNameFromField f) (value f)
                            (get_prop h previousResult
                                      (resultKeyNameFromField f))]
              else [])
           fields.

(** [v] is not a reference to something that [h] does not hold yet. *)
Definition allocated (h : heap) (v : val) : bool :=
  match v with
  | VRef l => bool_decide (l < length h)%nat
  | _ => true
  end.

(** ** Notions for what an evaluation comes to *)

(** The selection set the engine reads off a fragment selection. *)
Definition selection_selectionSet (ctx : ExecContext) (s : selection)
  : option SelectionSet :=
  match s with
  | IsField _ => None
  | IsInlineFragment _ _ selectionSet => Some selectionSet
  | IsFragmentSpread name _ =>
      fragment_selectionSet <$> fragment_lookup name (fragmentMap ctx)
  end.

(** The walk of [executeSelectionSet], entered in [st] with callees of depth
    [d], over the selections [pre]: the accumulator is allocated and the
    selections are evaluated in order.  It yields the changed flag and the
    state in which the selection after [pre] is come to. *)
Definition walk (d : nat) (ctx : ExecContext) (pre : SelectionSet)
    (rootValue previousResult : val) (st : state) : result state bool :=
  forEach (selection_callback (executeSelectionSet d) (executeField d)
             (merge d) rootValue previousResult ctx (length (st_heap st)))
          pre (nullish previousResult)
          (mkState (st_heap st ++ [CObj []]) (st_trace st)).

(** A call of [executeSelectionSet]: its arguments, the stack depth and the
    state it is entered in. *)
Record evaluation := mkEvaluation {
  ev_depth : nat;
  ev_selectionSet : SelectionSet;
  ev_rootValue : val;
  ev_previousResult : val;
  ev_state : state;
}.

Definition run (ctx : ExecContext) (e : evaluation) : result state val :=
  executeSelectionSet (ev_depth e) (ev_selectionSet e) (ev_rootValue e)
                      (ev_previousResult e) ctx (ev_state e).

(** [inside ctx target e]: the evaluation [e] comes to make the evaluation
    [target], which is [e] itself or one below it.  On the way down, at each
    level, the selections before the one that leads on have run through and
    that one is not excluded; it is a fragment the matcher accepts (line
    171), or a field whose resolver returns an object (line 241) or a list
    (line 232), in which the elements before the one that leads on have run
    through (lines 265 and 274). *)
Inductive inside (ctx : ExecContext) (target : evaluation)
  : evaluation → Prop :=
| inside_here : inside ctx target target
| inside_fragment d pre s post rootValue previousResult st modified st1
                  typeCondition selectionSet :
    walk d ctx pre rootValue previousResult st = Ok modified st1 →
    shouldInclude s (variableValues ctx) = true →
    selection_typeCondition ctx s = Some typeCondition →
    selection_selectionSet ctx s = Some selectionSet →
    fragmentMatcher ctx rootValue typeCondition (contextValue ctx)
                    (st_heap st1) = true →
    inside ctx target
           (mkEvaluation d selectionSet rootValue previousResult st1) →
    inside ctx target
           (mkEvaluation (S d) (pre ++ s :: post) rootValue previousResult st)
| inside_field d pre field post rootValue previousResult st modified st1
               selectionSet result h2 :
    walk (S d) ctx pre rootValue previousResult st = Ok modified st1 →
    shouldInclude (IsField field) (variableValues ctx) = true →
    field_selectionSet field = Some selectionSet →
    resolver ctx (field_name field) rootValue
             (argumentsObjectFromField field (variableValues ctx))
             (contextValue ctx) (field_info field) (st_heap st1)
    = Ok result h2 →
    nullish result = false →
    inside_value ctx target d field result
      (previous_slot h2 previousResult (resultKeyNameFromField field))
      (mkState h2
         (st_trace st1
          ++ [EvResolve (field_name field) rootValue
                (argumentsObjectFromField field (variableValues ctx))
                (field_info field)])) →
    inside ctx target
           (mkEvaluation (S (S d)) (pre ++ IsField field :: post) rootValue
                         previousResult st)

(** The same from the value of a field: an object the field's selection set
    is applied to, or a list. *)
with inside_value (ctx : ExecContext) (target : evaluation)
  : nat → Field → val → val → state → Prop :=
| inside_object d field selectionSet result previousResult st :
    field_selectionSet field = Some selectionSet →
    Array_isArray (st_heap st) result = false →
    inside ctx target
           (mkEvaluation d selectionSet result previousResult st) →
    inside_value ctx target d field result previousResult st
| inside_list d field result previousResult st i out st1 item :
    Array_isArray (st_heap st) result = true →
    (i < array_length (st_heap st) result)%nat →
    forEach (item_callback (executeSelectionSet d) (executeSubSelectedArray d)
               field result previousResult ctx)
            (seq 0 i) ([], nullish previousResult) st
    = Ok out st1 →
    array_item i result st1 = Ok item st1 →
    item ≠ VNull →
    inside_value ctx target d field item
      (if truthy previousResult then get_index (st_heap st1) previousResult i
       else VNull)
      st1 →
    inside_value ctx target (S d) field result previousResult st.

Scheme inside_mutual := Minimality for inside Sort Prop
with inside_value_mutual := Minimality for inside_value Sort Prop.

(** The context, and the previous result, that [graphql] evaluates the
    operation with. *)
Definition graphql_context (resolver : Resolver) (document : Document)
    (contextValue : val) (variableValues : VariableMap)
    (execOptions : ExecOptions) : ExecContext :=
  {| fragmentMap := createFragmentMap (fragmentDefinitions document);
     contextValue := contextValue;
     variableValues := variableValues;
     resultMapper := opt_resultMapper execOptions;
     resolver := resolver;
     fragmentMatcher :=
       default (λ _ _ _ _, true) (opt_fragmentMatcher execOptions) |}.

Definition graphql_previousResult (execOptions : ExecOptions) : val :=
  match opt_previousResult execOptions with
  | VUndefined => VNull
  | v => v
  end.

(** ** Keys and values the model is exact for *)

(** From the language: the names under which every object inherits a member
    of [Object.prototype].  A read of such a name from an object that has no
    own property of the name yields the inherited member, and an assignment
    to [__proto__] changes the prototype instead of adding a property; the
    model of property reads and writes does neither. *)
Definition Object_prototype_keys : list string :=
  [ "constructor"; "hasOwnProperty"; "isPrototypeOf"; "propertyIsEnumerable";
    "toLocaleString"; "toString"; "valueOf"; "__proto__";
    "__defineGetter__"; "__defineSetter__"; "__lookupGetter__";
    "__lookupSetter__" ].

Definition starts_with_digit (k : string) : bool :=
  bool_decide (String.substring 0 1 k
               ∈ ["0"; "1"; "2"; "3"; "4"; "5"; "6"; "7"; "8"; "9"]).

(** A key that names no inherited member of an object and is no array
    index (an object enumerates its index keys first, whenever they were
    added; a GraphQL name does not start with a digit). *)
Definition plain_key (k : string) : bool :=
  bool_decide (k ∉ Object_prototype_keys) && negb (starts_with_digit k).

(** [v] is an object of [h], or is falsy (no property of it is read under
    [previousResult && ...]). *)
Definition object_or_falsy (h : heap) (v : val) : bool :=
  match v with
  | VRef l => match h !! l with Some (CObj _) => true | _ => false end
  | _ => negb (truthy v)
  end.

(** ** Concrete executions

    The resolvers and data of the repository's tests of reference
    preservation, and a few more queries. *)

Module Scenario.

Definition leaf (name : string) : selection :=
  IsField (mkField name None [] [] None).

Definition aliased (alias name : string) : selection :=
  IsField (mkField name (Some alias) [] [] None).

Definition node (name : string) (selectionSet : SelectionSet) : selection :=
  IsField (mkField name None [] [] (Some selectionSet)).

Definition skipped (name : string) : selection :=
  IsField (mkField name None []
             [{| directive_name := "skip"; directive_if := CondLiteral true |}]
             None).

(** [(fieldName, root) => root[fieldName]] *)
Definition read_root : Resolver :=
  λ fieldName rootValue _ _ _ h,
    if nullish rootValue then Err TypeError
    else Ok (get_prop h rootValue fieldName) h.

(** [(_, root) => root + 'fake'], on strings *)
Definition add_fake : Resolver :=
  λ _ rootValue _ _ _ h,
    match rootValue with
    | VStr s => Ok (VStr (s +:+ "fake")) h
    | _ => Err TypeError
    end.

Definition query (selectionSet : SelectionSet) : Document :=
  {| mainDefinition := selectionSet; fragmentDefinitions := [] |}.

Definition options (previousResult : val) : ExecOptions :=
  {| opt_resultMapper := None; opt_fragmentMatcher := None;
     opt_previousResult := previousResult |}.

(** The context [graphql] builds from [read_root] and no options but the
    ones given. *)
Definition context (mapper : option ResultMapper) (matcher : FragmentMatcher)
  : ExecContext :=
  {| fragmentMap := []; contextValue := VNull; variableValues := [];
     resultMapper := mapper; resolver := read_root;
     fragmentMatcher := matcher |}.

Definition start (h : heap) : state := mkState h [].

(** [previousResult = { a: 1, b: 2, c: 3, d: 4 }] at 0 and the root value
    [{ a: 1, b: 2, c: 3 }] at 1: the first test. *)
Definition flat_heap : heap :=
  [ CObj [("a", VNum 1); ("b", VNum 2); ("c", VNum 3); ("d", VNum 4)];
    CObj [("a", VNum 1); ("b", VNum 2); ("c", VNum 3)] ].

Definition flat_query : SelectionSet := [leaf "a"; leaf "b"; leaf "c"].

(** The second test: [previousResult] at 0, its [b] at 1 and [b.e] at 2. *)
Definition unchanged_deep_heap : heap :=
  [ CObj [("a", VStr "fake"); ("b", VRef 1)];
    CObj [("c", VStr "fakefake"); ("d", VStr "fakefake"); ("e", VRef 2)];
    CObj [("f", VStr "fakefakefake")] ].

Definition unchanged_deep_query : SelectionSet :=
  [ leaf "a"; node "b" [leaf "c"; leaf "d"; node "e" [leaf "f"]] ].

(** The fourth test: the data at 0 with its list at 1, [previousResult] at 5
    with its list at 6. *)
Definition rows_heap : heap :=
  [ CObj [("a", VStr "hello"); ("b", VRef 1)];
    CArr [VRef 2; VRef 3; VRef 4];
    CObj [("c", VNum 1); ("d", VNum 2); ("e", VNum 3)];
    CObj [("c", VNum 4); ("d", VNum 5); ("e", VNum 6)];
    CObj [("c", VNum 7); ("d", VNum 8); ("e", VNum 9)];
    CObj [("b", VRef 6)];
    CArr [VRef 7; VRef 8; VRef 9];
    CObj [("c", VNum 1); ("d", VNum 2); ("e", VNum 3)];
    CObj [("c", VNum 4); ("d", VNum 5); ("e", VNum 6)];
    CObj [("c", VNum 7); ("d", VNum 8); ("e", VNum 9)] ].

Definition rows_query : SelectionSet :=
  [ leaf "a"; node "b" [leaf "c"; leaf "d"; leaf "e"] ].

(** The third test: [previousResult] at 0, its [b] at 1, [b.e] at 2, [b.g]
    at 3 and [b.g.i] at 4. *)
Definition deep_heap : heap :=
  [ CObj [("a", VStr "not fake"); ("extra", VBool true); ("b", VRef 1)];
    CObj [("c", VStr "not fakefake"); ("d", VStr "fakefake");
          ("extra", VBool true); ("e", VRef 2); ("g", VRef 3)];
    CObj [("f", VStr "fakefakefake"); ("extra", VBool true)];
    CObj [("h", VNull); ("extra", VBool true); ("i", VRef 4)];
    CObj [("j", VStr "fakefakefakefake"); ("extra", VBool true)] ].

Definition deep_query : SelectionSet :=
  [ leaf "a";
    node "b" [ leaf "c"; leaf "d"; node "e" [leaf "f"];
               node "g" [leaf "h"; node "i" [leaf "j"]] ] ].

(** [{ ... on Dog { name: nickname } ... on Cat { name: fullName } }] against
    [{ nickname: "Rex", fullName: "Rex the Third" }]. *)
Definition pet_heap : heap :=
  [ CObj [("nickname", VStr "Rex"); ("fullName", VStr "Rex the Third")] ].

Definition pet_query : SelectionSet :=
  [ IsInlineFragment (Some "Dog") [] [aliased "name" "nickname"];
    IsInlineFragment (Some "Cat") [] [aliased "name" "fullName"] ].

(** [{ b { c } }] against [{ b: [null] }] at 3, with
    [previousResult = { b: [{ c: 1 }] }] at 0. *)
Definition null_item_heap : heap :=
  [ CObj [("b", VRef 1)]; CArr [VRef 2]; CObj [("c", VNum 1)];
    CObj [("b", VRef 4)]; CArr [VNull] ].

(** [{ b { c } }] against [{ b: [[{ c: 2 }]] }] at 4, with
    [previousResult = { b: [[{ c: 1 }]] }] at 0. *)
Definition nested_list_heap : heap :=
  [ CObj [("b", VRef 1)]; CArr [VRef 2]; CArr [VRef 3]; CObj [("c", VNum 1)];
    CObj [("b", VRef 5)]; CArr [VRef 6]; CArr [VRef 7]; CObj [("c", VNum 2)] ].

Definition list_query : SelectionSet := [node "b" [leaf "c"]].

Definition list_field : Field := mkField "b" None [] [] (Some [leaf "c"]).

(** [{ ... on T { b { c } } ... on T { b { d } } }] against
    [{ b: { c: 1, d: 2 } }] at 2, with [previousResult = { b: { c: 1 } }]
    at 0 (its [b] at 1). *)
Definition shared_heap : heap :=
  [ CObj [("b", VRef 1)]; CObj [("c", VNum 1)];
    CObj [("b", VRef 3)]; CObj [("c", VNum 1); ("d", VNum 2)] ].

Definition shared_query : SelectionSet :=
  [ IsInlineFragment (Some "T") [] [node "b" [leaf "c"]];
    IsInlineFragment (Some "T") [] [node "b" [leaf "d"]] ].

(** [shared_query] against [{ b: [{ c: 1, d: 2 }] }], without a previous
    result. *)
Definition shared_list_heap : heap :=
  [ CObj [("b", VRef 1)]; CArr [VRef 2]; CObj [("c", VNum 1); ("d", VNum 2)] ].

(** A mapper that hands the accumulator back, and one that hands the root
    value back. *)
Definition keep_fields : ResultMapper := λ fields _ h, Ok fields h.
Definition keep_root : ResultMapper := λ _ rootValue h, Ok rootValue h.

Definition always : FragmentMatcher := λ _ _ _ _, true.

(** The fields of [flat_query]. *)
Definition flat_fields : list Field :=
  [ mkField "a" None [] [] None; mkField "b" None [] [] None;
    mkField "c" None [] [] None ].

(** What [read_root] returns for a field against the root value of
    [flat_heap]. *)
Definition flat_value (f : Field) : val :=
  get_prop flat_heap (VRef 1) (field_name f).

(** A fragment [F on T { b }] and the context [graphql] builds around it. *)
Definition fragment_F : FragmentDefinition :=
  {| fragment_name := "F"; fragment_typeCondition := "T";
     fragment_selectionSet := [leaf "b"] |}.

Definition context_F : ExecContext :=
  {| fragmentMap := createFragmentMap [fragment_F]; contextValue := VNull;
     variableValues := []; resultMapper := None; resolver := read_root;
     fragmentMatcher := always |}.

(** The state a run ends in. *)
Definition final {A} (r : result state A) : state :=
  match r with Ok _ st => st | Err _ => start [] end.


(** An empty object at 0, and at 1 an object whose [b] is the object at 2. *)
Definition copy_heap : heap :=
  [ CObj []; CObj [("a", VNum 1); ("b", VRef 2)]; CObj [("c", VNum 1)] ].



(** [{ x h { ... on T { ...Missing } } }] against [{ h: { x: 1 } }] at 0,
    and [{ hs { ...Missing } }] against [{ hs: [null, { x: 1 }] }] at 2. *)
Definition missing_heap : heap :=
  [ CObj [("h", VRef 1)]; CObj [("x", VNum 1)];
    CObj [("hs", VRef 3)]; CArr [VNull; VRef 1] ].

Definition missing_query : SelectionSet :=
  [ leaf "x";
    node "h" [IsInlineFragment (Some "T") [] [IsFragmentSpread "Missing" []]] ].

Definition missing_list_query : SelectionSet :=
  [ node "hs" [IsFragmentSpread "Missing" []] ].

(** A resolver that raises for the field [b] of a root value that has no
    such property, and reads the root value otherwise. *)
Definition strict_b : Resolver :=
  λ fieldName rootValue args contextValue info h,
    if bool_decide (fieldName = "b") && negb (hasOwnProperty h rootValue "b")
    then Err (Thrown (VStr "no b"))
    else read_root fieldName rootValue args contextValue info h.

End Scenario.

(** [m'] returns whatever [m] returns. *)
Definition returns_more {A} (m m' : M A) : Prop :=
  ∀ st a st', m st = Ok a st' → m' st = Ok a st'.

(** * Properties *)

(** ** Running the monad *)

Lemma bind_Ok {A B} (m : M A) (k : A → M B) st b st2 :
  bind m k st = Ok b st2 ↔ ∃ a st1, m st = Ok a st1 ∧ k a st1 = Ok b st2.
Proof.
  unfold bind. split.
  - destruct (m st) as [a st1|e] eqn:E; [eauto | discriminate].
  - intros (a & st1 & -> & Hk). exact Hk.
Qed.

Lemma forEach_app {A B} (f : A → B → M B) l1 l2 b st :
  forEach f (l1 ++ l2) b st = bind (forEach f l1 b) (forEach f l2) st.
Proof.
  revert b st. induction l1 as [|x l1 IH]; intros b st; simpl; [done|].
  unfold bind. destruct (f x b st) as [b' st'|e]; [|done].
  rewrite IH. reflexivity.
Qed.

(** A step that does nothing can be dropped from the walk. *)
Lemma forEach_skip {A B} (f : A → B → M B) l1 x l2 b st :
  (∀ b' st', f x b' st' = Ok b' st') →
  forEach f (l1 ++ x :: l2) b st = forEach f (l1 ++ l2) b st.
Proof.
  intros Hx. rewrite !forEach_app. unfold bind.
  destruct (forEach f l1 b st) as [b' st'|e]; [|done].
  simpl. unfold bind. by rewrite Hx.
Qed.


(** ** The recursive functions, one call deep *)

Lemma executeSelectionSet_unfold d selectionSet rootValue previousResult ctx :
  executeSelectionSet (S d) selectionSet rootValue previousResult ctx =
  (let* result := alloc (CObj []) in
   let* resultModified :=
     forEach (selection_callback (executeSelectionSet d) (executeField d)
                                 (merge d) rootValue previousResult ctx result)
             selectionSet (nullish previousResult) in
   match resultMapper ctx with
   | Some mapper => call (mapper (VRef result) rootValue)
   | None => ret (if resultModified then VRef result else previousResult)
   end).
Proof. reflexivity. Qed.

Lemma executeField_unfold d field rootValue previousResult ctx :
  executeField (S d) field rootValue previousResult ctx =
  (let args := argumentsObjectFromField field (variableValues ctx) in
   log (EvResolve (field_name field) rootValue args (field_info field));;;
   let* result :=
     call (resolver ctx (field_name field) rootValue args (contextValue ctx)
                    (field_info field)) in
   match field_selectionSet field with
   | None => ret result
   | Some selectionSet =>
       if nullish result then ret result
       else
         let* h := get_heap in
         if Array_isArray h result then
           executeSubSelectedArray d field result
             (previous_slot h previousResult (resultKeyNameFromField field)) ctx
         else
           executeSelectionSet d selectionSet result
             (previous_slot h previousResult (resultKeyNameFromField field)) ctx
   end).
Proof. reflexivity. Qed.

Lemma executeSubSelectedArray_unfold d field result previousResult ctx :
  executeSubSelectedArray (S d) field result previousResult ctx =
  (let* h := get_heap in
   let* out :=
     forEach (item_callback (executeSelectionSet d) (executeSubSelectedArray d)
                            field result previousResult ctx)
             (seq 0 (array_length h result)) ([], nullish previousResult) in
   let* nextResult := alloc (CArr out.1) in
   ret (if out.2 then VRef nextResult else previousResult)).
Proof. reflexivity. Qed.

Lemma merge_unfold d dest src :
  merge (S d) dest src =
  (let* h := get_heap in
   if overrides h src then ret src
   else
     let* destKeys := Object_keys dest in
     forEach_ (λ destKey,
       let* has := call_hasOwnProperty src destKey in
       let* h := get_heap in
       if has then
         merge d (get_prop h dest destKey) (get_prop h src destKey);;; ret tt
       else ret tt) destKeys;;;
     let* srcKeys := Object_keys src in
     forEach_ (λ srcKey,
       let* has := call_hasOwnProperty dest srcKey in
       let* h := get_heap in
       if has then ret tt
       else set_prop dest srcKey (get_prop h src srcKey)) srcKeys;;;
     ret VUndefined).
Proof. reflexivity. Qed.

Lemma strict_eq_refl v : strict_eq v v = true.
Proof. unfold strict_eq. by apply bool_decide_eq_true. Qed.

(** ** Field evaluation *)

(** C9. A field without a nested selection set yields whatever the resolver
    returned, and so does a field with one when the resolver returned [null]
    or [undefined]: the value is handed back as it is, and nothing but the
    resolver call happens (the selection set is not applied). *)
Theorem executeField_returns_resolver_result_verbatim
    d field rootValue previousResult ctx st result h' :
  resolver ctx (field_name field) rootValue
           (argumentsObjectFromField field (variableValues ctx))
           (contextValue ctx) (field_info field) (st_heap st) = Ok result h' →
  field_selectionSet field = None ∨ nullish result = true →
  executeField (S d) field rootValue previousResult ctx st =
  Ok result
     (mkState h'
        (st_trace st ++
         [EvResolve (field_name field) rootValue
            (argumentsObjectFromField field (variableValues ctx))
            (field_info field)])).
Proof.
  intros Hres Hcase. rewrite executeField_unfold. cbv zeta.
  unfold bind, log, call. cbn [st_heap st_trace]. rewrite Hres.
  destruct (field_selectionSet field) as [selectionSet|]; [|done].
  destruct Hcase as [?| ->]; [done|]. done.
Qed.

(** ** Selections that contribute nothing *)

Lemma excluded_selection_step exec_ss exec_f merge_ rootValue previousResult
    ctx result s resultModified st :
  shouldInclude s (variableValues ctx) = false →
  selection_callback exec_ss exec_f merge_ rootValue previousResult ctx result
                     s resultModified st
  = Ok resultModified st.
Proof. intros Hs. unfold selection_callback. by rewrite Hs. Qed.


(** C6, as amended. A selection the directive filter excludes contributes
    nothing: its step of the walk leaves the accumulator, the heap, the trace
    of resolver calls and the changed flag as they were, and the whole
    evaluation is that of the selection set without the selection. *)
Theorem excluded_selection_contributes_nothing
    d ctx rootValue previousResult pre s post :
  shouldInclude s (variableValues ctx) = false →
  (∀ result resultModified st,
     selection_callback (executeSelectionSet d) (executeField d) (merge d)
       rootValue previousResult ctx result s resultModified st
     = Ok resultModified st)
  ∧ (∀ st,
       executeSelectionSet d (pre ++ s :: post) rootValue previousResult ctx st
       = executeSelectionSet d (pre ++ post) rootValue previousResult ctx st).
Proof.
  intros Hs. split.
  - intros. by apply excluded_selection_step.
  - intros st. destruct d as [|d]; [done|].
    rewrite !executeSelectionSet_unfold. unfold bind at 1 3.
    destruct (alloc (CObj []) st) as [result st1|e]; [|done].
    unfold bind. rewrite forEach_skip; [done|].
    intros. by apply excluded_selection_step.
Qed.


(** ** The result mapper *)

(** C8, as amended. With a result mapper configured, a selection-set
    evaluation is: make the accumulator, walk the selections, hand accumulator
    and root value to the mapper, whose outcome is the outcome whatever the
    changed flag says.  The engine never puts [previousResult] in its place;
    the value is [previousResult] only if the mapper returns that.  This is so
    for every evaluation, at the root or below. *)
Theorem result_mapper_output_is_returned
    d ctx mapper selectionSet rootValue previousResult st :
  resultMapper ctx = Some mapper →
  executeSelectionSet (S d) selectionSet rootValue previousResult ctx st
  = (let* result := alloc (CObj []) in
     forEach (selection_callback (executeSelectionSet d) (executeField d)
                                 (merge d) rootValue previousResult ctx result)
             selectionSet (nullish previousResult);;;
     call (mapper (VRef result) rootValue)) st
  ∧ (∀ v st',
       executeSelectionSet (S d) selectionSet rootValue previousResult ctx st
       = Ok v st' →
       ∃ h, mapper (VRef (length (st_heap st))) rootValue h
            = Ok v (st_heap st')).
Proof.
  intros Hm. rewrite executeSelectionSet_unfold, Hm. split; [done|].
  intros v st' Hrun.
  apply bind_Ok in Hrun as (result & st1 & Halloc & Hrun).
  apply bind_Ok in Hrun as (modified & st2 & _ & Hrun).
  injection Halloc as <- <-.
  unfold call in Hrun.
  destruct (mapper _ _ (st_heap st2)) as [v' h'|e] eqn:E; [|done].
  injection Hrun as <- <-. by exists (st_heap st2).
Qed.

(** ** Unknown fragments *)

Lemma unknown_spread_step exec_ss exec_f merge_ rootValue previousResult ctx
    result name directives resultModified st :
  shouldInclude (IsFragmentSpread name directives) (variableValues ctx) = true →
  fragment_lookup name (fragmentMap ctx) = None →
  selection_callback exec_ss exec_f merge_ rootValue previousResult ctx result
    (IsFragmentSpread name directives) resultModified st
  = Err (NoFragmentNamed name).
Proof. intros Hincl Hmissing. unfold selection_callback. by rewrite Hincl, Hmissing. Qed.


(** An error of one step of a walk is the error of the walk. *)
Lemma forEach_raises_at {A B} (f : A → B → M B) l1 x l2 b st b1 st1 err :
  forEach f l1 b st = Ok b1 st1 →
  f x b1 st1 = Err err →
  forEach f (l1 ++ x :: l2) b st = Err err.
Proof.
  intros Hpre Hstep. rewrite forEach_app. unfold bind. rewrite Hpre.
  cbn [forEach]. unfold bind. by rewrite Hstep.
Qed.

Lemma walk_raises_at d ctx pre s post rootValue previousResult st modified st1
    err :
  walk d ctx pre rootValue previousResult st = Ok modified st1 →
  selection_callback (executeSelectionSet d) (executeField d) (merge d)
    rootValue previousResult ctx (length (st_heap st)) s modified st1
  = Err err →
  executeSelectionSet (S d) (pre ++ s :: post) rootValue previousResult ctx st
  = Err err.
Proof.
  intros Hwalk Hstep. rewrite executeSelectionSet_unfold.
  unfold bind at 1. unfold alloc. unfold bind at 1.
  by rewrite (forEach_raises_at _ _ _ _ _ _ _ _ _ Hwalk Hstep).
Qed.

(** Nothing in the engine catches an error: the error of an evaluation is
    the error of every evaluation that comes to make it. *)
Lemma error_comes_out ctx target err :
  run ctx target = Err err →
  ∀ e, inside ctx target e → run ctx e = Err err.
Proof.
  intros Herr.
  apply (inside_mutual ctx target
           (λ e, run ctx e = Err err)
           (λ d field result previousResult st,
              ∀ selectionSet, field_selectionSet field = Some selectionSet →
                (if Array_isArray (st_heap st) result
                 then executeSubSelectedArray d field result previousResult
                                              ctx st
                 else executeSelectionSet d selectionSet result previousResult
                                          ctx st) = Err err)).
  - exact Herr.
  - intros d pre s post rootValue previousResult st modified st1
           typeCondition selectionSet Hwalk Hincl Htc Hss Hmatch _ IH.
    unfold run in *. cbn [ev_depth ev_selectionSet ev_rootValue
                          ev_previousResult ev_state] in *.
    eapply walk_raises_at; [exact Hwalk|].
    unfold selection_callback. rewrite Hincl. cbn [negb].
    destruct s as [f|tc ds ss|name ds]; simpl in Htc, Hss.
    + discriminate.
    + injection Hss as ->. subst tc.
      unfold fragment_callback, bind, get_heap, ret. cbn [st_heap].
      by rewrite Hmatch, IH.
    + destruct (fragment_lookup name (fragmentMap ctx)) as [def|]; [|done].
      injection Htc as <-. injection Hss as <-.
      unfold fragment_callback, bind, get_heap, ret. cbn [st_heap].
      by rewrite Hmatch, IH.
  - intros d pre field post rootValue previousResult st modified st1
           selectionSet result h2 Hwalk Hincl Hss Hres Hnn _ IH.
    unfold run in *. cbn [ev_depth ev_selectionSet ev_rootValue
                          ev_previousResult ev_state] in *.
    eapply walk_raises_at; [exact Hwalk|].
    unfold selection_callback. rewrite Hincl. cbn [negb].
    unfold bind at 1. rewrite executeField_unfold. cbv zeta.
    unfold bind, log, call, get_heap. cbn [st_heap st_trace].
    rewrite Hres, Hss, Hnn. cbn [st_heap].
    specialize (IH _ Hss). cbn [st_heap] in IH.
    destruct (Array_isArray h2 result); by rewrite IH.
  - intros d field selectionSet result previousResult st Hss Harr _ IH
           selectionSet' Hss'.
    rewrite Harr. rewrite Hss in Hss'. injection Hss' as <-. exact IH.
  - intros d field result previousResult st i out st1 item Harr Hi Hpre Hitem
           Hnull _ IH selectionSet Hss.
    rewrite Harr. rewrite executeSubSelectedArray_unfold.
    unfold bind at 1. unfold get_heap at 1. unfold bind at 1.
    replace (seq 0 (array_length (st_heap st) result))
      with (seq 0 i ++ i :: seq (S i) (array_length (st_heap st) result - S i)).
    2:{ replace (array_length (st_heap st) result)
          with (i + S (array_length (st_heap st) result - S i))%nat at 2
          by lia.
        by rewrite seq_app. }
    erewrite forEach_raises_at; [done | exact Hpre |].
    unfold item_callback. unfold bind at 1. rewrite Hitem.
    unfold strict_eq. rewrite bool_decide_eq_false_2 by done.
    unfold bind at 1. unfold get_heap at 1.
    specialize (IH _ Hss).
    destruct (Array_isArray (st_heap st1) item).
    + unfold bind. by rewrite IH.
    + rewrite Hss. unfold bind at 1. unfold ret at 1. unfold bind.
      by rewrite IH.
Qed.

Lemma graphql_is_an_evaluation
    d resolver document rootValue contextValue variableValues execOptions st :
  graphql d resolver document rootValue contextValue variableValues
          execOptions st
  = run (graphql_context resolver document contextValue variableValues
                         execOptions)
        (mkEvaluation d (mainDefinition document) rootValue
                      (graphql_previousResult execOptions) st).
Proof. reflexivity. Qed.

(** C5, as amended. An execution that comes to a spread, not excluded by a
    directive, of a name the fragment map does not have returns no value, at
    whatever depth of fields, lists and fragments the spread is come to: it
    raises.  The spread is come to when, at each level on the way down and in
    the selection set that holds it, the selections before have run through.
    The error is the one saying that no fragment has that name; this is
    stated for names that are not those of inherited members, which a map
    kept in a plain object would answer for. *)
Theorem unknown_fragment_is_fatal
    d resolver document rootValue contextValue variableValues execOptions st
    d' pre name directives post rootValue' previousResult' st' modified st1 :
  inside
    (graphql_context resolver document contextValue variableValues
                     execOptions)
    (mkEvaluation (S d') (pre ++ IsFragmentSpread name directives :: post)
                  rootValue' previousResult' st')
    (mkEvaluation d (mainDefinition document) rootValue
                  (graphql_previousResult execOptions) st) →
  walk d'
       (graphql_context resolver document contextValue variableValues
                        execOptions)
       pre rootValue' previousResult' st' = Ok modified st1 →
  shouldInclude (IsFragmentSpread name directives) variableValues = true →
  fragment_lookup name (createFragmentMap (fragmentDefinitions document))
  = None →
  (∃ e, graphql d resolver document rootValue contextValue variableValues
          execOptions st = Err e)
  ∧ (name ∉ Object_prototype_keys →
     graphql d resolver document rootValue contextValue variableValues
             execOptions st
     = Err (NoFragmentNamed name)).
Proof.
  intros Hinside Hwalk Hincl Hmissing.
  assert (graphql d resolver document rootValue contextValue variableValues
            execOptions st = Err (NoFragmentNamed name)) as Hraise.
  { rewrite graphql_is_an_evaluation.
    eapply error_comes_out; [|exact Hinside].
    unfold run. cbn [ev_depth ev_selectionSet ev_rootValue ev_previousResult
                     ev_state].
    eapply walk_raises_at; [exact Hwalk|].
    by apply unknown_spread_step. }
  split; [by exists (NoFragmentNamed name) | done].
Qed.

(** ** A relation between the states before and after a call

    Whatever relation between states is reflexive, transitive and kept by the
    engine's primitive steps (allocation, a trace entry, a callback, adding a
    missing property in [merge], storing into the accumulator of the running
    evaluation) relates the state before any call to the state after it. *)

Lemma ret_Ok {A} (a b : A) st st' : ret a st = Ok b st' → b = a ∧ st' = st.
Proof. by intros [= <- <-]. Qed.

Lemma get_heap_Ok st h st' : get_heap st = Ok h st' → h = st_heap st ∧ st' = st.
Proof. by intros [= <- <-]. Qed.

Lemma Object_keys_Ok v st ks st' : Object_keys v st = Ok ks st' → st' = st.
Proof.
  unfold Object_keys. destruct v as [| | | | |l]; try by intros [= _ <-].
  destruct (heap_cell (st_heap st) l); by intros [= _ <-].
Qed.

Lemma call_hasOwnProperty_Ok v k st b st' :
  call_hasOwnProperty v k st = Ok b st' →
  b = hasOwnProperty (st_heap st) v k ∧ st' = st
  ∧ hasOwnProperty (st_heap st) v "hasOwnProperty" = false.
Proof.
  unfold call_hasOwnProperty. destruct (nullish v); [done|].
  destruct (hasOwnProperty (st_heap st) v "hasOwnProperty"); [done|].
  by intros [= <- <-].
Qed.

Lemma array_item_Ok i v st x st' : array_item i v st = Ok x st' → st' = st.
Proof.
  unfold array_item. destruct v as [| | | | |l]; try done.
  destruct (heap_cell (st_heap st) l) as [|items]; [done|].
  destruct (items !! i); [by intros [= _ <-] | done].
Qed.

Lemma forEach_inv {A B} (Inv : state → Prop) (f : A → B → M B) l :
  (∀ x b st b' st', Inv st → f x b st = Ok b' st' → Inv st') →
  ∀ b st b' st', Inv st → forEach f l b st = Ok b' st' → Inv st'.
Proof.
  intros Hf. induction l as [|x l IH]; intros b st b' st' Hinv Hrun.
  - by injection Hrun as <- <-.
  - simpl in Hrun. apply bind_Ok in Hrun as (b1 & st1 & H1 & H2).
    eapply IH; [|exact H2]. eapply Hf; [exact Hinv | exact H1].
Qed.

Section EngineRelation.
Variable R : state → state → Prop.
Variable ctx : ExecContext.

Hypothesis R_refl : ∀ st, R st st.
Hypothesis R_trans : ∀ st1 st2 st3, R st1 st2 → R st2 st3 → R st1 st3.
Hypothesis R_alloc : ∀ c st l st', alloc c st = Ok l st' → R st st'.
Hypothesis R_log : ∀ e st u st', log e st = Ok u st' → R st st'.
Hypothesis R_resolver :
  ∀ fieldName rootValue args info st v st',
    call (resolver ctx fieldName rootValue args (contextValue ctx) info) st
    = Ok v st' → R st st'.
Hypothesis R_mapper :
  ∀ mapper acc rootValue st v st',
    resultMapper ctx = Some mapper →
    call (mapper acc rootValue) st = Ok v st' → R st st'.
Hypothesis R_add :
  ∀ dest k v st u st',
    hasOwnProperty (st_heap st) dest k = false →
    set_prop dest k v st = Ok u st' → R st st'.
Hypothesis R_store :
  ∀ st0 st l k v u st',
    R st0 st → (length (st_heap st0) ≤ l)%nat →
    set_prop (VRef l) k v st = Ok u st' → R st0 st'.

Lemma merge_rel d dest src st v st' :
  merge d dest src st = Ok v st' → R st st'.
Proof.
  revert dest src st v st'.
  induction d as [|d IH]; intros dest src st v st' Hrun; [done|].
  rewrite merge_unfold in Hrun.
  apply bind_Ok in Hrun as (h & st1 & [-> ->]%get_heap_Ok & Hrun).
  destruct (overrides (st_heap st) src).
  { apply ret_Ok in Hrun as [_ ->]. apply R_refl. }
  apply bind_Ok in Hrun as (destKeys & st1 & ->%Object_keys_Ok & Hrun).
  apply bind_Ok in Hrun as (u1 & st2 & Hloop1 & Hrun).
  apply bind_Ok in Hrun as (srcKeys & st3 & ->%Object_keys_Ok & Hrun).
  apply bind_Ok in Hrun as (u2 & st4 & Hloop2 & Hrun).
  apply ret_Ok in Hrun as [_ ->].
  assert (R st st2) as H12.
  { revert Hloop1. apply (forEach_inv (R st)); [|apply R_refl].
    intros destKey [] sta [] stb Hinv Hstep.
    apply bind_Ok in Hstep
      as (has & st1 & (-> & -> & _)%call_hasOwnProperty_Ok & Hstep).
    apply bind_Ok in Hstep as (h & st1 & [-> ->]%get_heap_Ok & Hstep).
    destruct (hasOwnProperty (st_heap sta) src destKey).
    - apply bind_Ok in Hstep as (w & stc & Hm & [_ ->]%ret_Ok).
      eapply R_trans; [exact Hinv | eapply IH, Hm].
    - by apply ret_Ok in Hstep as [_ ->]. }
  revert Hloop2. apply (forEach_inv (R st)); [|exact H12].
  intros srcKey [] sta [] stb Hinv Hstep.
  apply bind_Ok in Hstep
    as (has & st1 & (-> & -> & _)%call_hasOwnProperty_Ok & Hstep).
  apply bind_Ok in Hstep as (h & st1 & [-> ->]%get_heap_Ok & Hstep).
  destruct (hasOwnProperty (st_heap sta) dest srcKey) eqn:Hown.
  - by apply ret_Ok in Hstep as [_ ->].
  - eapply R_trans; [exact Hinv | eapply R_add; [exact Hown | exact Hstep]].
Qed.

Lemma selection_callback_rel exec_ss exec_f merge_ rootValue previousResult
    result s st0 resultModified st resultModified' st' :
  (∀ ss root prev sta v stb, exec_ss ss root prev ctx sta = Ok v stb → R sta stb) →
  (∀ f root prev sta v stb, exec_f f root prev ctx sta = Ok v stb → R sta stb) →
  (∀ dest src sta v stb, merge_ dest src sta = Ok v stb → R sta stb) →
  (∀ sta k v u stb,
     R st0 sta → set_prop (VRef result) k v sta = Ok u stb → R st0 stb) →
  R st0 st →
  selection_callback exec_ss exec_f merge_ rootValue previousResult ctx
                     result s resultModified st = Ok resultModified' st' →
  R st0 st'.
Proof.
  intros Hss Hf Hm Hfresh Hinv Hstep. unfold selection_callback in Hstep.
  destruct (negb (shouldInclude s (variableValues ctx))).
  { by apply ret_Ok in Hstep as [_ ->]. }
  assert (Hfrag : ∀ tc ss,
    fragment_callback exec_ss merge_ rootValue previousResult ctx result
      resultModified tc ss st = Ok resultModified' st' → R st0 st').
  { intros tc ss Hfc. unfold fragment_callback in Hfc.
    apply bind_Ok in Hfc as (t & st1 & Htc & Hfc).
    assert (st1 = st) as ->.
    { destruct tc; [by apply ret_Ok in Htc as [_ ->] | done]. }
    apply bind_Ok in Hfc as (h & st1 & [-> ->]%get_heap_Ok & Hfc).
    destruct (fragmentMatcher ctx _ _ _ _).
    - apply bind_Ok in Hfc as (fragmentResult & st1 & Hexec & Hfc).
      apply bind_Ok in Hfc as (w & st2 & Hmerge & [_ ->]%ret_Ok).
      eapply R_trans; [exact Hinv|].
      eapply R_trans; [eapply Hss, Hexec | eapply Hm, Hmerge].
    - by apply ret_Ok in Hfc as [_ ->]. }
  destruct s as [field|tc ds ss|name ds].
  - apply bind_Ok in Hstep as (fieldResult & st1 & Hexec & Hstep).
    apply bind_Ok in Hstep as (h & st2 & [-> ->]%get_heap_Ok & Hstep).
    apply bind_Ok in Hstep as (u & st2 & Hlog & Hstep).
    apply bind_Ok in Hstep as (u' & st3 & Hstore & [_ ->]%ret_Ok).
    assert (R st0 st2) as H02.
    { eapply R_trans; [exact Hinv|].
      eapply R_trans; [eapply Hf, Hexec | eapply R_log, Hlog]. }
    destruct (negb (strict_eq fieldResult VUndefined)).
    + eapply Hfresh; [exact H02 | exact Hstore].
    + by apply ret_Ok in Hstore as [_ ->].
  - by eapply Hfrag.
  - destruct (fragment_lookup name (fragmentMap ctx)); [by eapply Hfrag | done].
Qed.

Lemma item_callback_rel exec_ss exec_arr field result previousResult
    i acc st acc' st' :
  (∀ ss root prev sta v stb, exec_ss ss root prev ctx sta = Ok v stb → R sta stb) →
  (∀ f root prev sta v stb, exec_arr f root prev ctx sta = Ok v stb → R sta stb) →
  item_callback exec_ss exec_arr field result previousResult ctx i acc st
  = Ok acc' st' →
  R st st'.
Proof.
  intros Hss Harr Hstep. unfold item_callback in Hstep.
  apply bind_Ok in Hstep as (item & st1 & ->%array_item_Ok & Hstep).
  destruct (strict_eq item VNull).
  { apply ret_Ok in Hstep as [_ ->]. apply R_refl. }
  apply bind_Ok in Hstep as (h & st1 & [-> ->]%get_heap_Ok & Hstep).
  destruct (Array_isArray (st_heap st) item).
  - apply bind_Ok in Hstep as (nextItem & st1 & Hexec & [_ ->]%ret_Ok).
    eapply Harr, Hexec.
  - apply bind_Ok in Hstep as (selectionSet & st1 & Hsel & Hstep).
    assert (st1 = st) as ->.
    { destruct (field_selectionSet field);
        [by apply ret_Ok in Hsel as [_ ->] | done]. }
    apply bind_Ok in Hstep as (nextItem & st1 & Hexec & Hstep).
    apply bind_Ok in Hstep as (h & st2 & [-> ->]%get_heap_Ok & [_ ->]%ret_Ok).
    eapply Hss, Hexec.
Qed.

Lemma engine_rel d :
  (∀ ss root prev st v st',
     executeSelectionSet d ss root prev ctx st = Ok v st' → R st st')
  ∧ (∀ f root prev st v st',
       executeField d f root prev ctx st = Ok v st' → R st st')
  ∧ (∀ f res prev st v st',
       executeSubSelectedArray d f res prev ctx st = Ok v st' → R st st').
Proof.
  induction d as [|d (IHss & IHf & IHarr)]; [by repeat split|].
  split; [|split].
  - intros ss root prev st v st' Hrun.
    rewrite executeSelectionSet_unfold in Hrun.
    apply bind_Ok in Hrun as (result & st1 & Halloc & Hrun).
    apply bind_Ok in Hrun as (modified & st2 & Hloop & Hrun).
    assert (R st st2) as H02.
    { revert Hloop. apply (forEach_inv (R st)); [|eapply R_alloc, Halloc].
      intros s b sta b' stb Hinv Hstep.
      eapply selection_callback_rel;
        [exact IHss | exact IHf | apply merge_rel | | exact Hinv | exact Hstep].
      intros stx k w u sty Hx Hset. eapply R_store; [exact Hx | | exact Hset].
      by injection Halloc as <- _. }
    destruct (resultMapper ctx) as [mapper|] eqn:Hmapper.
    + eapply R_trans; [exact H02 | eapply R_mapper; [reflexivity | exact Hrun]].
    + by apply ret_Ok in Hrun as [_ ->].
  - intros f root prev st v st' Hrun.
    rewrite executeField_unfold in Hrun. cbv zeta in Hrun.
    apply bind_Ok in Hrun as (u & st1 & Hlog & Hrun).
    apply bind_Ok in Hrun as (result & st2 & Hcall & Hrun).
    assert (R st st2) as H02.
    { eapply R_trans; [eapply R_log, Hlog | eapply R_resolver, Hcall]. }
    destruct (field_selectionSet f) as [selectionSet|].
    2: { by apply ret_Ok in Hrun as [_ ->]. }
    destruct (nullish result).
    { by apply ret_Ok in Hrun as [_ ->]. }
    apply bind_Ok in Hrun as (h & st3 & [-> ->]%get_heap_Ok & Hrun).
    destruct (Array_isArray (st_heap st2) result).
    + eapply R_trans; [exact H02 | eapply IHarr, Hrun].
    + eapply R_trans; [exact H02 | eapply IHss, Hrun].
  - intros f res prev st v st' Hrun.
    rewrite executeSubSelectedArray_unfold in Hrun.
    apply bind_Ok in Hrun as (h & st1 & [-> ->]%get_heap_Ok & Hrun).
    apply bind_Ok in Hrun as (out & st1 & Hloop & Hrun).
    apply bind_Ok in Hrun as (nextResult & st2 & Halloc & [_ ->]%ret_Ok).
    eapply R_trans; [|eapply R_alloc, Halloc].
    revert Hloop. apply (forEach_inv (R st)); [|apply R_refl].
    intros i b sta b' stb Hinv Hstep.
    eapply R_trans; [exact Hinv|].
    eapply item_callback_rel; [exact IHss | exact IHarr | exact Hstep].
Qed.
End EngineRelation.

(** ** A deeper stack changes no result

    Whatever a call returns with a stack of some depth it returns with any
    deeper one: the depth only decides whether [RangeError] is raised. *)

Lemma returns_more_refl {A} (m : M A) : returns_more m m.
Proof. by intros st a st'. Qed.

Lemma returns_more_bind {A B} (m m' : M A) (k k' : A → M B) :
  returns_more m m' → (∀ a, returns_more (k a) (k' a)) →
  returns_more (bind m k) (bind m' k').
Proof.
  intros Hm Hk st b st2 (a & st1 & H1 & H2)%bind_Ok.
  apply bind_Ok. exists a, st1. split; [by apply Hm | by apply Hk].
Qed.

Lemma returns_more_forEach {A B} (f f' : A → B → M B) l b :
  (∀ x b, returns_more (f x b) (f' x b)) →
  returns_more (forEach f l b) (forEach f' l b).
Proof.
  intros Hf. revert b. induction l as [|x l IH]; intros b; simpl.
  - apply returns_more_refl.
  - apply returns_more_bind; [apply Hf | exact IH].
Qed.

Lemma merge_deeper d dest src : returns_more (merge d dest src) (merge (S d) dest src).
Proof.
  revert dest src. induction d as [|d IH]; intros dest src; [by intros ???|].
  rewrite (merge_unfold (S d)), (merge_unfold d).
  apply returns_more_bind; [apply returns_more_refl|]. intros h.
  destruct (overrides h src); [apply returns_more_refl|].
  apply returns_more_bind; [apply returns_more_refl|]. intros destKeys.
  apply returns_more_bind; [|intros _; apply returns_more_refl].
  apply returns_more_forEach. intros destKey [].
  apply returns_more_bind; [apply returns_more_refl|]. intros has.
  apply returns_more_bind; [apply returns_more_refl|]. intros h'.
  destruct has; [|apply returns_more_refl].
  apply returns_more_bind; [apply IH | intros _; apply returns_more_refl].
Qed.

Lemma selection_callback_deeper exec_ss exec_ss' exec_f exec_f' merge_ merge_'
    rootValue previousResult ctx result s resultModified :
  (∀ ss root prev, returns_more (exec_ss ss root prev ctx)
                                (exec_ss' ss root prev ctx)) →
  (∀ f root prev, returns_more (exec_f f root prev ctx)
                               (exec_f' f root prev ctx)) →
  (∀ dest src, returns_more (merge_ dest src) (merge_' dest src)) →
  returns_more
    (selection_callback exec_ss exec_f merge_ rootValue previousResult ctx
                        result s resultModified)
    (selection_callback exec_ss' exec_f' merge_' rootValue previousResult ctx
                        result s resultModified).
Proof.
  intros Hss Hf Hm. unfold selection_callback.
  destruct (negb (shouldInclude s (variableValues ctx)));
    [apply returns_more_refl|].
  assert (Hfrag : ∀ tc ss,
    returns_more
      (fragment_callback exec_ss merge_ rootValue previousResult ctx result
                         resultModified tc ss)
      (fragment_callback exec_ss' merge_' rootValue previousResult ctx result
                         resultModified tc ss)).
  { intros tc ss. unfold fragment_callback.
    apply returns_more_bind; [apply returns_more_refl|]. intros t.
    apply returns_more_bind; [apply returns_more_refl|]. intros h.
    destruct (fragmentMatcher ctx _ _ _ _); [|apply returns_more_refl].
    apply returns_more_bind; [apply Hss|]. intros fragmentResult.
    apply returns_more_bind; [apply Hm | intros _; apply returns_more_refl]. }
  destruct s as [field|tc ds ss|name ds].
  - apply returns_more_bind; [apply Hf | intros ?; apply returns_more_refl].
  - apply Hfrag.
  - destruct (fragment_lookup name (fragmentMap ctx));
      [apply Hfrag | apply returns_more_refl].
Qed.

Lemma item_callback_deeper exec_ss exec_ss' exec_arr exec_arr'
    field result previousResult ctx i acc :
  (∀ ss root prev, returns_more (exec_ss ss root prev ctx)
                                (exec_ss' ss root prev ctx)) →
  (∀ f res prev, returns_more (exec_arr f res prev ctx)
                              (exec_arr' f res prev ctx)) →
  returns_more
    (item_callback exec_ss exec_arr field result previousResult ctx i acc)
    (item_callback exec_ss' exec_arr' field result previousResult ctx i acc).
Proof.
  intros Hss Harr. unfold item_callback.
  apply returns_more_bind; [apply returns_more_refl|]. intros item.
  destruct (strict_eq item VNull); [apply returns_more_refl|].
  apply returns_more_bind; [apply returns_more_refl|]. intros h.
  destruct (Array_isArray h item).
  - apply returns_more_bind; [apply Harr | intros ?; apply returns_more_refl].
  - apply returns_more_bind; [apply returns_more_refl|]. intros selectionSet.
    apply returns_more_bind; [apply Hss | intros ?; apply returns_more_refl].
Qed.

Lemma engine_deeper ctx d :
  (∀ ss root prev, returns_more (executeSelectionSet d ss root prev ctx)
                                (executeSelectionSet (S d) ss root prev ctx))
  ∧ (∀ f root prev, returns_more (executeField d f root prev ctx)
                                 (executeField (S d) f root prev ctx))
  ∧ (∀ f res prev, returns_more (executeSubSelectedArray d f res prev ctx)
                                (executeSubSelectedArray (S d) f res prev ctx)).
Proof.
  induction d as [|d (IHss & IHf & IHarr)]; [by repeat split; intros ??????|].
  split; [|split].
  - intros ss root prev.
    rewrite (executeSelectionSet_unfold (S d)), (executeSelectionSet_unfold d).
    apply returns_more_bind; [apply returns_more_refl|]. intros result.
    apply returns_more_bind; [|intros ?; apply returns_more_refl].
    apply returns_more_forEach. intros s b.
    apply selection_callback_deeper; [exact IHss | exact IHf |].
    intros. apply merge_deeper.
  - intros f root prev.
    rewrite (executeField_unfold (S d)), (executeField_unfold d). cbv zeta.
    apply returns_more_bind; [apply returns_more_refl|]. intros _.
    apply returns_more_bind; [apply returns_more_refl|]. intros result.
    destruct (field_selectionSet f); [|apply returns_more_refl].
    destruct (nullish result); [apply returns_more_refl|].
    apply returns_more_bind; [apply returns_more_refl|]. intros h.
    destruct (Array_isArray h result); [apply IHarr | apply IHss].
  - intros f res prev.
    rewrite (executeSubSelectedArray_unfold (S d)),
            (executeSubSelectedArray_unfold d).
    apply returns_more_bind; [apply returns_more_refl|]. intros h.
    apply returns_more_bind; [|intros ?; apply returns_more_refl].
    apply returns_more_forEach. intros i acc.
    apply item_callback_deeper; [exact IHss | exact IHarr].
Qed.

(** The result of an evaluation stands at every greater stack depth. *)
Lemma executeSelectionSet_deeper ctx d d' ss root prev st v st' :
  (d ≤ d')%nat →
  executeSelectionSet d ss root prev ctx st = Ok v st' →
  executeSelectionSet d' ss root prev ctx st = Ok v st'.
Proof.
  intros Hle Hrun. induction Hle as [|d' _ IH]; [done|].
  by apply (engine_deeper ctx d').
Qed.

(** ** The trace *)

Lemma trace_extends_refl st : trace_extends st st.
Proof. exists []. by rewrite app_nil_r. Qed.

Lemma trace_extends_trans st1 st2 st3 :
  trace_extends st1 st2 → trace_extends st2 st3 → trace_extends st1 st3.
Proof.
  intros [e1 H1] [e2 H2]. exists (e1 ++ e2). by rewrite H2, H1, app_assoc.
Qed.

Lemma set_prop_trace dest k v st u st' :
  set_prop dest k v st = Ok u st' → st_trace st' = st_trace st.
Proof.
  unfold set_prop. destruct dest as [| | | | |l]; try done.
  destruct (st_heap st !! l) as [[ps|items]|]; try done. by intros [= _ <-].
Qed.

Lemma call_trace {A} (f : callback A) st a st' :
  call f st = Ok a st' → st_trace st' = st_trace st.
Proof.
  unfold call. destruct (f (st_heap st)); [|done]. by intros [= _ <-].
Qed.

Lemma trace_extends_eq st st' :
  st_trace st' = st_trace st → trace_extends st st'.
Proof. intros H. exists []. by rewrite app_nil_r. Qed.

Lemma engine_trace_extends ctx d :
  (∀ ss root prev st v st',
     executeSelectionSet d ss root prev ctx st = Ok v st' → trace_extends st st')
  ∧ (∀ f root prev st v st',
       executeField d f root prev ctx st = Ok v st' → trace_extends st st')
  ∧ (∀ f res prev st v st',
       executeSubSelectedArray d f res prev ctx st = Ok v st' →
       trace_extends st st').
Proof.
  apply engine_rel.
  - apply trace_extends_refl.
  - apply trace_extends_trans.
  - intros c st l st' [= _ <-]. by apply trace_extends_eq.
  - intros e st u st' [= _ <-]. by exists [e].
  - intros. eapply trace_extends_eq, call_trace. eassumption.
  - intros. eapply trace_extends_eq, call_trace. eassumption.
  - intros. eapply trace_extends_eq, set_prop_trace. eassumption.
  - intros st0 st l k v u st' H0 _ Hset.
    eapply trace_extends_trans; [exact H0|].
    eapply trace_extends_eq, set_prop_trace. eassumption.
Qed.

Lemma merge_trace_extends d dest src st v st' :
  merge d dest src st = Ok v st' → trace_extends st st'.
Proof.
  apply (merge_rel trace_extends).
  - apply trace_extends_refl.
  - apply trace_extends_trans.
  - intros. eapply trace_extends_eq, set_prop_trace. eassumption.
Qed.

Lemma selection_callback_trace_extends d ctx rootValue previousResult result
    s resultModified st resultModified' st' :
  selection_callback (executeSelectionSet d) (executeField d) (merge d)
    rootValue previousResult ctx result s resultModified st
  = Ok resultModified' st' →
  trace_extends st st'.
Proof.
  intros Hstep. destruct (engine_trace_extends ctx d) as (Tss & Tf & _).
  eapply (selection_callback_rel trace_extends ctx) with (st0 := st).
  all: cycle -1.
  - exact Hstep.
  - apply trace_extends_trans.
  - intros e sta u stb [= _ <-]. by exists [e].
  - exact Tss.
  - exact Tf.
  - apply merge_trace_extends.
  - intros sta k v u stb H0 Hset.
    eapply trace_extends_trans; [exact H0|].
    eapply trace_extends_eq, set_prop_trace. eassumption.
  - apply trace_extends_refl.
Qed.

Lemma new_events_app st st1 st2 :
  trace_extends st st1 → trace_extends st1 st2 →
  new_events st st2 = new_events st st1 ++ new_events st1 st2.
Proof.
  intros [e1 H1] [e2 H2]. unfold new_events. rewrite H2, H1.
  rewrite <- app_assoc, !drop_app_length.
  rewrite (app_assoc (st_trace st)), drop_app_length. done.
Qed.

Lemma fields_identical_app prev e1 e2 :
  fields_identical prev (e1 ++ e2) = true ↔
  fields_identical prev e1 = true ∧ fields_identical prev e2 = true.
Proof. unfold fields_identical. rewrite forallb_app. apply andb_true_iff. Qed.

(** ** Identity preservation *)

(** The walk keeps the changed flag down while the fields are identical. *)
Lemma forEach_selection_unchanged d ctx rootValue previousResult result :
  resultMapper ctx = None →
  (∀ ss st v st',
     executeSelectionSet d ss rootValue previousResult ctx st = Ok v st' →
     fields_identical previousResult (new_events st st') = true →
     v = previousResult) →
  ∀ selections st resultModified st',
    forEach (selection_callback (executeSelectionSet d) (executeField d)
                                (merge d) rootValue previousResult ctx result)
            selections false st = Ok resultModified st' →
    fields_identical previousResult (new_events st st') = true →
    resultModified = false ∧ trace_extends st st'.
Proof.
  intros Hmapper IH.
  induction selections as [|s selections IHl]; intros st m st' Hrun Hev.
  { apply ret_Ok in Hrun as [-> ->]. split; [done | apply trace_extends_refl]. }
  simpl in Hrun. apply bind_Ok in Hrun as (m1 & st1 & Hstep & Hrest).
  destruct (engine_trace_extends ctx d) as (Tss & Tf & _).
  assert (trace_extends st st1 ∧
          (fields_identical previousResult (new_events st st1) = true →
           m1 = false)) as [Hext1 Hm1].
  { unfold selection_callback in Hstep.
    destruct (negb (shouldInclude s (variableValues ctx))).
    { apply ret_Ok in Hstep as [-> ->]. split; [apply trace_extends_refl|done]. }
    assert (Hfrag : ∀ tc ss,
      fragment_callback (executeSelectionSet d) (merge d) rootValue
        previousResult ctx result false tc ss st = Ok m1 st1 →
      trace_extends st st1 ∧
      (fields_identical previousResult (new_events st st1) = true → m1 = false)).
    { intros tc ss Hfc. unfold fragment_callback in Hfc.
      apply bind_Ok in Hfc as (t & sta & Htc & Hfc).
      assert (sta = st) as ->.
      { destruct tc; [by apply ret_Ok in Htc as [_ ->] | done]. }
      apply bind_Ok in Hfc as (h & sta & [-> ->]%get_heap_Ok & Hfc).
      destruct (fragmentMatcher ctx _ _ _ _).
      - apply bind_Ok in Hfc as (fragmentResult & sta & Hexec & Hfc).
        apply bind_Ok in Hfc as (w & stb & Hmerge & [-> ->]%ret_Ok).
        pose proof (Tss _ _ _ _ _ _ Hexec) as Ha.
        pose proof (merge_trace_extends _ _ _ _ _ _ Hmerge) as Hb.
        split; [by eapply trace_extends_trans|].
        rewrite (new_events_app st sta stb Ha Hb).
        intros [Hev1 _]%fields_identical_app.
        rewrite (IH _ _ _ _ Hexec Hev1), strict_eq_refl. done.
      - apply ret_Ok in Hfc as [-> ->]. split; [apply trace_extends_refl|done]. }
    destruct s as [field|tc ds ss|name ds].
    - apply bind_Ok in Hstep as (fieldResult & sta & Hexec & Hstep).
      apply bind_Ok in Hstep as (h & stb & [-> ->]%get_heap_Ok & Hstep).
      apply bind_Ok in Hstep as (u & stb & Hlog & Hstep).
      apply bind_Ok in Hstep as (u' & stc & Hstore & [-> ->]%ret_Ok).
      pose proof (Tf _ _ _ _ _ _ Hexec) as Ha.
      assert (st_trace stc = st_trace stb) as Htr.
      { destruct (negb (strict_eq fieldResult VUndefined)).
        - by eapply set_prop_trace.
        - by apply ret_Ok in Hstore as [_ ->]. }
      injection Hlog as _ <-.
      assert (trace_extends sta stc) as Hb.
      { eexists. rewrite Htr. reflexivity. }
      split; [by eapply trace_extends_trans|].
      rewrite (new_events_app st sta stc Ha Hb).
      intros [_ Hev2]%fields_identical_app. revert Hev2.
      unfold new_events. rewrite Htr. cbn [st_trace].
      rewrite drop_app_length. cbn. rewrite decide_True by done.
      rewrite andb_true_r. intros ->. by rewrite andb_false_r.
    - exact (Hfrag _ _ Hstep).
    - destruct (fragment_lookup name (fragmentMap ctx));
        [exact (Hfrag _ _ Hstep) | done]. }
  assert (trace_extends st1 st') as Hext2.
  { revert Hrest. apply (forEach_inv (trace_extends st1));
      [|apply trace_extends_refl].
    intros x b sta b' stb Hinv Hx.
    eapply trace_extends_trans; [exact Hinv|].
    eapply selection_callback_trace_extends, Hx. }
  rewrite (new_events_app st st1 st' Hext1 Hext2) in Hev.
  apply fields_identical_app in Hev as [Hev1 Hev2].
  rewrite (Hm1 Hev1) in Hrest.
  split; [|by eapply trace_extends_trans].
  by apply (IHl _ _ _ Hrest Hev2).
Qed.

Lemma identity_at_depth d ctx selectionSet rootValue previousResult st v st' :
  resultMapper ctx = None →
  nullish previousResult = false →
  executeSelectionSet d selectionSet rootValue previousResult ctx st = Ok v st' →
  fields_identical previousResult (new_events st st') = true →
  v = previousResult.
Proof.
  intros Hmapper Hprev. revert selectionSet st v st'.
  induction d as [|d IH]; intros selectionSet st v st' Hrun Hev; [done|].
  rewrite executeSelectionSet_unfold, Hmapper, Hprev in Hrun.
  apply bind_Ok in Hrun as (result & st1 & Halloc & Hrun).
  apply bind_Ok in Hrun as (modified & st2 & Hloop & [-> ->]%ret_Ok).
  injection Halloc as _ <-.
  destruct (forEach_selection_unchanged d ctx rootValue previousResult result
              Hmapper IH _ _ _ _ Hloop) as [-> _]; [exact Hev | done].
Qed.

(** C1, as amended. Without a result mapper, an evaluation against a
    [previousResult] that is neither [null] nor [undefined] which runs to its
    end, and in which every field executed at that level returned the value
    [previousResult] holds under the field's result key, returns
    [previousResult] itself, and does so with every deeper stack.  The
    evaluation is any one: the root's, a fragment's, or that of a field's
    selection set against its own slice. *)
Theorem identity_preservation
    d ctx selectionSet rootValue previousResult st v st' :
  resultMapper ctx = None →
  nullish previousResult = false →
  executeSelectionSet d selectionSet rootValue previousResult ctx st = Ok v st' →
  fields_identical previousResult (new_events st st') = true →
  v = previousResult
  ∧ ∀ d', (d ≤ d')%nat →
          executeSelectionSet d' selectionSet rootValue previousResult ctx st
          = Ok previousResult st'.
Proof.
  intros Hmapper Hprev Hrun Hev.
  assert (v = previousResult) as ->; [|split; [done|]].
  - eapply identity_at_depth; eassumption.
  - intros d' Hle. by eapply executeSelectionSet_deeper.
Qed.

(** The same one level down: a field with a selection set whose resolver
    returns an object hands back the slice of [previousResult] under its key
    when the fields below it are identical to those of the slice, whatever
    happens to its siblings. *)
Lemma identity_preservation_below_field
    d ctx field selectionSet rootValue previousResult st result h' v st' :
  resultMapper ctx = None →
  field_selectionSet field = Some selectionSet →
  resolver ctx (field_name field) rootValue
           (argumentsObjectFromField field (variableValues ctx))
           (contextValue ctx) (field_info field) (st_heap st) = Ok result h' →
  nullish result = false →
  Array_isArray h' result = false →
  let slice := previous_slot h' previousResult (resultKeyNameFromField field) in
  nullish slice = false →
  executeField (S d) field rootValue previousResult ctx st = Ok v st' →
  fields_identical slice (new_events st st') = true →
  v = slice.
Proof.
  intros Hmapper Hss Hres Hnn Harr slice Hslice Hrun Hev.
  rewrite executeField_unfold in Hrun. cbv zeta in Hrun.
  apply bind_Ok in Hrun as (u & st1 & Hlog & Hrun).
  apply bind_Ok in Hrun as (r & st2 & Hcall & Hrun).
  injection Hlog as _ <-. unfold call in Hcall. cbn [st_heap st_trace] in Hcall.
  rewrite Hres in Hcall. injection Hcall as <- <-.
  rewrite Hss, Hnn in Hrun.
  apply bind_Ok in Hrun as (h & st3 & [-> ->]%get_heap_Ok & Hrun).
  cbn [st_heap] in Hrun. rewrite Harr in Hrun.
  eapply identity_at_depth; [exact Hmapper | exact Hslice | exact Hrun |].
  destruct (engine_trace_extends ctx d) as (Tss & _ & _).
  pose proof (Tss _ _ _ _ _ _ Hrun) as Hb.
  assert (trace_extends st
            (mkState h' (st_trace st ++
               [EvResolve (field_name field) rootValue
                  (argumentsObjectFromField field (variableValues ctx))
                  (field_info field)]))) as Ha by (by eexists).
  rewrite (new_events_app _ _ _ Ha Hb) in Hev.
  by apply fields_identical_app in Hev as [_ ?].
Qed.

(** ** What the engine leaves in place *)

Lemma alist_lookup_set_ne k k' v ps :
  k' ≠ k → alist_lookup k' (alist_set k v ps) = alist_lookup k' ps.
Proof.
  intros Hne. induction ps as [|[k0 v0] ps IH]; simpl.
  - by rewrite decide_False.
  - destruct (decide (k = k0)) as [->|]; simpl.
    + by rewrite !decide_False.
    + destruct (decide (k' = k0)); [done | exact IH].
Qed.

Lemma cell_extends_refl c : cell_extends c c.
Proof. destruct c; simpl; auto. Qed.

Lemma cell_extends_trans c1 c2 c3 :
  cell_extends c1 c2 → cell_extends c2 c3 → cell_extends c1 c3.
Proof.
  destruct c1, c2, c3; simpl; try done; [auto | congruence].
Qed.

Lemma heap_extends_refl h : heap_extends h h.
Proof. intros l c Hl. exists c. split; [done | apply cell_extends_refl]. Qed.

Lemma heap_extends_length h h' : heap_extends h h' → (length h ≤ length h')%nat.
Proof.
  intros Hext. destruct (decide (length h ≤ length h')%nat) as [|Hlt]; [done|].
  destruct (h !! length h') as [c|] eqn:E.
  - destruct (Hext _ _ E) as (c' & Hc' & _).
    apply lookup_lt_Some in Hc'. lia.
  - apply lookup_ge_None in E. lia.
Qed.

Lemma heap_extends_preserves_below n h t h' t' :
  heap_extends h h' → preserves_below n (mkState h t) (mkState h' t').
Proof.
  intros Hext Hn. cbn [st_heap] in *. split.
  - apply heap_extends_length in Hext. lia.
  - intros l c _ Hl. by apply Hext.
Qed.

Lemma preserves_below_refl n st : preserves_below n st st.
Proof.
  intros Hn. split; [done|]. intros l c _ Hl. exists c.
  split; [done | apply cell_extends_refl].
Qed.

Lemma preserves_below_trans n st1 st2 st3 :
  preserves_below n st1 st2 → preserves_below n st2 st3 →
  preserves_below n st1 st3.
Proof.
  intros H12 H23 Hn. destruct (H12 Hn) as [Hn2 H12'].
  destruct (H23 Hn2) as [Hn3 H23']. split; [done|].
  intros l c Hl Hc. destruct (H12' _ _ Hl Hc) as (c2 & Hc2 & He2).
  destruct (H23' _ _ Hl Hc2) as (c3 & Hc3 & He3).
  exists c3. split; [done | by eapply cell_extends_trans].
Qed.

Lemma preserves_below_same_heap n st st' :
  st_heap st' = st_heap st → preserves_below n st st'.
Proof.
  intros Hh Hn. rewrite Hh. split; [done|]. intros l c _ Hl. exists c.
  split; [done | apply cell_extends_refl].
Qed.

Lemma call_preserves_below {A} n (f : callback A) st a st' :
  callback_preserves f → call f st = Ok a st' → preserves_below n st st'.
Proof.
  intros Hf. unfold call. destruct (f (st_heap st)) as [a' h'|] eqn:E; [|done].
  intros [= _ <-]. destruct st as [h t].
  by eapply heap_extends_preserves_below, Hf.
Qed.

(** Adding a property an object does not have extends the heap. *)
Lemma set_prop_absent_extends dest k v st u st' :
  hasOwnProperty (st_heap st) dest k = false →
  set_prop dest k v st = Ok u st' →
  heap_extends (st_heap st) (st_heap st').
Proof.
  unfold set_prop. destruct dest as [| | | | |l]; try done.
  destruct (st_heap st !! l) as [[ps|items]|] eqn:El; try done.
  intros Hown [= _ <-]. cbn [st_heap].
  unfold hasOwnProperty, heap_cell in Hown. rewrite El in Hown. simpl in Hown.
  apply bool_decide_eq_false in Hown.
  intros l' c Hl'. destruct (decide (l' = l)) as [->|Hne].
  - rewrite El in Hl'. injection Hl' as <-.
    exists (CObj (alist_set k v ps)). split.
    + apply list_lookup_insert_eq. by eapply lookup_lt_Some.
    + intros k' x Hk'. rewrite alist_lookup_set_ne; [done|].
      intros ->. apply Hown. by rewrite Hk'.
  - exists c. split; [|apply cell_extends_refl].
    by rewrite list_lookup_insert_ne.
Qed.

(** A store into a location leaves the other locations alone. *)
Lemma set_prop_lookup_ne l k v st u st' l' :
  set_prop (VRef l) k v st = Ok u st' → l' ≠ l →
  st_heap st' !! l' = st_heap st !! l'.
Proof.
  unfold set_prop. destruct (st_heap st !! l) as [[ps|items]|] eqn:El; try done.
  intros [= _ <-] Hne. cbn [st_heap]. by apply list_lookup_insert_ne.
Qed.

Lemma set_prop_length dest k v st u st' :
  set_prop dest k v st = Ok u st' →
  length (st_heap st') = length (st_heap st).
Proof.
  unfold set_prop. destruct dest as [| | | | |l]; try done.
  destruct (st_heap st !! l) as [[ps|items]|] eqn:El; try done.
  intros [= _ <-]. cbn [st_heap]. apply length_insert.
Qed.

(** [merge] only adds: it extends the heap. *)
Lemma merge_extends d dest src st v st' :
  merge d dest src st = Ok v st' → heap_extends (st_heap st) (st_heap st').
Proof.
  apply (merge_rel (λ st st', heap_extends (st_heap st) (st_heap st'))).
  - intros. apply heap_extends_refl.
  - intros st1 st2 st3 H12 H23 l c Hl.
    destruct (H12 _ _ Hl) as (c2 & Hc2 & He2).
    destruct (H23 _ _ Hc2) as (c3 & Hc3 & He3).
    exists c3. split; [done | by eapply cell_extends_trans].
  - intros. by eapply set_prop_absent_extends.
Qed.

(** So a property an object has keeps its value through [merge], whatever the
    source holds under that key. *)
Lemma merge_never_overwrites d dest src st v st' l ps k x :
  merge d dest src st = Ok v st' →
  st_heap st !! l = Some (CObj ps) →
  alist_lookup k ps = Some x →
  get_prop (st_heap st') (VRef l) k = x.
Proof.
  intros Hrun Hl Hk.
  destruct (merge_extends _ _ _ _ _ _ Hrun _ _ Hl) as (c' & Hc' & Hext).
  unfold get_prop, heap_cell. rewrite Hc'. simpl.
  destruct c' as [ps'|items]; [|done]. simpl in Hext.
  by rewrite (Hext _ _ Hk).
Qed.

Section Frame.
Variable ctx : ExecContext.
Hypothesis Hcallbacks : callbacks_preserve ctx.

Lemma engine_preserves_below n d :
  (∀ ss root prev st v st',
     executeSelectionSet d ss root prev ctx st = Ok v st' →
     preserves_below n st st')
  ∧ (∀ f root prev st v st',
       executeField d f root prev ctx st = Ok v st' →
       preserves_below n st st')
  ∧ (∀ f res prev st v st',
       executeSubSelectedArray d f res prev ctx st = Ok v st' →
       preserves_below n st st').
Proof.
  destruct Hcallbacks as [Hresolver Hmapper].
  apply engine_rel.
  - apply preserves_below_refl.
  - apply preserves_below_trans.
  - intros c st l st' [= _ <-] Hn. cbn [st_heap]. split.
    + rewrite length_app. lia.
    + intros l' c' _ Hl'. exists c'. split; [|apply cell_extends_refl].
      by apply lookup_app_l_Some.
  - intros e st u st' [= _ <-]. by apply preserves_below_same_heap.
  - intros. eapply call_preserves_below; [apply Hresolver | eassumption].
  - intros. eapply call_preserves_below; [by eapply Hmapper | eassumption].
  - intros dest k v st u st' Hown Hset. destruct st, st'.
    eapply heap_extends_preserves_below.
    by eapply (set_prop_absent_extends dest k v (mkState _ _) u (mkState _ _)).
  - intros st0 st l k v u st' H0 Hfresh Hset Hn.
    destruct (H0 Hn) as [Hn' Hcells]. split.
    + rewrite (set_prop_length _ _ _ _ _ _ Hset). done.
    + intros l' c Hl' Hc.
      rewrite (set_prop_lookup_ne _ _ _ _ _ _ l' Hset) by lia.
      by apply Hcells.
Qed.

(** Whatever was on the heap when a call started is there when it ends. *)
Lemma engine_extends d :
  (∀ ss root prev st v st',
     executeSelectionSet d ss root prev ctx st = Ok v st' →
     heap_extends (st_heap st) (st_heap st'))
  ∧ (∀ f root prev st v st',
       executeField d f root prev ctx st = Ok v st' →
       heap_extends (st_heap st) (st_heap st'))
  ∧ (∀ f res prev st v st',
       executeSubSelectedArray d f res prev ctx st = Ok v st' →
       heap_extends (st_heap st) (st_heap st')).
Proof.
  assert (Hall : ∀ st st',
    (∀ n, preserves_below n st st') →
    heap_extends (st_heap st) (st_heap st')).
  { intros st st' H l c Hl.
    destruct (H (length (st_heap st))) as [_ Hcells]; [done|].
    eapply Hcells; [|done]. by eapply lookup_lt_Some. }
  repeat split; intros; apply Hall; intros n;
    destruct (engine_preserves_below n d) as (Hss & Hf & Harr); eauto.
Qed.
End Frame.

(** C10. An evaluation that returns [previousResult] itself hands back all of
    it: every property [previousResult] had before the call, whether or not
    a selection of the query names it, is a property of the value returned,
    with the value it had.  The callbacks are taken to leave the properties on
    the heap in place, as the engine does. *)
Theorem previous_result_is_not_pruned
    d ctx selectionSet rootValue previousResult st st' :
  callbacks_preserve ctx →
  executeSelectionSet d selectionSet rootValue previousResult ctx st
  = Ok previousResult st' →
  ∀ k, hasOwnProperty (st_heap st) previousResult k = true →
       hasOwnProperty (st_heap st') previousResult k = true
       ∧ get_prop (st_heap st') previousResult k
         = get_prop (st_heap st) previousResult k.
Proof.
  intros Hcb Hrun k Hown.
  destruct (engine_extends ctx Hcb d) as (Hss & _ & _).
  pose proof (Hss _ _ _ _ _ _ Hrun) as Hext.
  destruct previousResult as [| | | | |l]; try done.
  unfold hasOwnProperty, get_prop, heap_cell in *.
  destruct (st_heap st !! l) as [c|] eqn:El.
  - destruct (Hext _ _ El) as (c' & -> & Hcell). cbn [default] in *.
    destruct c as [ps|items], c' as [ps'|items']; simpl in Hcell; try done.
    + apply bool_decide_eq_true in Hown as [x Hx].
      split.
      * apply bool_decide_eq_true. exists x. by apply Hcell.
      * simpl. by rewrite (Hcell _ _ Hx), Hx.
    + by subst items'.
  - cbn [default] in Hown. by apply bool_decide_eq_true in Hown as [x Hx].
Qed.

(** ** The tests of the repository *)

(** will return a previous value if nothing changed in a flat object *)
Example test_flat_object :
  match
    graphql 2 Scenario.read_root (Scenario.query Scenario.flat_query)
            (VRef 1) VNull [] (Scenario.options (VRef 0))
            (Scenario.start Scenario.flat_heap)
  with
  | Ok result _ => result = VRef 0
  | Err _ => False
  end.
Proof. vm_compute. reflexivity. Qed.

(** will return a previous value if nothing changed in a deep object *)
Example test_deep_object :
  match
    graphql 6 Scenario.add_fake (Scenario.query Scenario.unchanged_deep_query)
            (VStr "") VNull [] (Scenario.options (VRef 0))
            (Scenario.start Scenario.unchanged_deep_heap)
  with
  | Ok result _ => result = VRef 0
  | Err _ => False
  end.
Proof. vm_compute. reflexivity. Qed.

(** will preserve references for objects a few levels deep *)
Example test_a_few_levels_deep :
  match
    graphql 8 Scenario.add_fake (Scenario.query Scenario.deep_query)
            (VStr "") VNull [] (Scenario.options (VRef 0))
            (Scenario.start Scenario.deep_heap)
  with
  | Ok result st' =>
      let h := st_heap st' in
      let b := get_prop h result "b" in
      let g := get_prop h b "g" in
      result ≠ VRef 0
      ∧ get_prop h result "a" = VStr "fake"
      ∧ get_prop h b "c" = VStr "fakefake"
      ∧ get_prop h b "e" = get_prop Scenario.deep_heap (VRef 1) "e"
      ∧ get_prop h (get_prop h b "e") "extra" = VBool true
      ∧ get_prop h g "h" = VStr "fakefakefake"
      ∧ get_prop h g "extra" = VUndefined
      ∧ get_prop h g "i" = get_prop Scenario.deep_heap (VRef 3) "i"
  | Err _ => False
  end.
Proof. vm_compute. repeat split. discriminate. Qed.

(** will preserve arrays that did not change *)
Example test_arrays :
  match
    graphql 6 Scenario.read_root (Scenario.query Scenario.rows_query)
            (VRef 0) VNull [] (Scenario.options (VRef 5))
            (Scenario.start Scenario.rows_heap)
  with
  | Ok result st' =>
      result ≠ VRef 5
      ∧ get_prop (st_heap st') result "a" = VStr "hello"
      ∧ get_prop (st_heap st') result "b"
        = get_prop Scenario.rows_heap (VRef 5) "b"
  | Err _ => False
  end.
Proof. vm_compute. repeat split. discriminate. Qed.

(** ** Where the code departs from the specification *)

(** C2. [merge] never overwrites: a key that source and destination share
    with a scalar or a list on the source side keeps the destination's value,
    in a direct call on [{ a: 1 }] and [{ a: 2 }], when the engine merges the
    results of two fragments that fill the same result key, and when two
    fragments select different fields of the elements of one list: the list
    of the first fragment stays, and [d] is nowhere in the result. *)
Theorem merge_keeps_the_destination_value :
  merge 2 (VRef 0) (VRef 1)
        (Scenario.start [CObj [("a", VNum 1)]; CObj [("a", VNum 2)]])
  = Ok VUndefined
       (Scenario.start [CObj [("a", VNum 1)]; CObj [("a", VNum 2)]])
  ∧ match
      graphql 3 Scenario.read_root (Scenario.query Scenario.pet_query)
              (VRef 0) VNull [] (Scenario.options VUndefined)
              (Scenario.start Scenario.pet_heap)
    with
    | Ok v st' => get_prop (st_heap st') v "name" = VStr "Rex"
    | Err _ => False
    end
  ∧ match
      graphql 8 Scenario.read_root (Scenario.query Scenario.shared_query)
              (VRef 0) VNull [] (Scenario.options VUndefined)
              (Scenario.start Scenario.shared_list_heap)
    with
    | Ok v st' =>
        let h := st_heap st' in
        let item := get_index h (get_prop h v "b") 0 in
        get_prop h item "c" = VNum 1 ∧ get_prop h item "d" = VUndefined
    | Err _ => False
    end.
Proof.
  split; [vm_compute; reflexivity|].
  split; vm_compute; [reflexivity | split; reflexivity].
Qed.

(** C3. [executeSubSelectedArray] compares neither a [null] element nor a
    nested list with the previous element: for the list [[null]] against the
    previous list [[{ c: 1 }]], and for [[[{ c: 2 }]]] against
    [[[{ c: 1 }]]], it returns the previous list, whose element is not the
    element just produced; the execution then returns [previousResult], with
    [{ c: 1 }] where the data has [null]. *)
Theorem array_change_goes_unnoticed :
  match
    executeSubSelectedArray 3 Scenario.list_field (VRef 4) (VRef 1)
      (Scenario.context None Scenario.always)
      (Scenario.start Scenario.null_item_heap)
  with
  | Ok v st' =>
      v = VRef 1
      ∧ get_index (st_heap st') (VRef 1) 0 = VRef 2
      ∧ get_index (st_heap st') (VRef (length (st_heap st') - 1)) 0 = VNull
  | Err _ => False
  end
  ∧ match
      executeSubSelectedArray 4 Scenario.list_field (VRef 5) (VRef 1)
        (Scenario.context None Scenario.always)
        (Scenario.start Scenario.nested_list_heap)
    with
    | Ok v st' =>
        v = VRef 1
        ∧ get_index (st_heap st') (VRef 1) 0 = VRef 2
        ∧ get_index (st_heap st') (VRef (length (st_heap st') - 1)) 0
          ≠ VRef 2
    | Err _ => False
    end
  ∧ match
      graphql 5 Scenario.read_root (Scenario.query Scenario.list_query)
              (VRef 3) VNull [] (Scenario.options (VRef 0))
              (Scenario.start Scenario.null_item_heap)
    with
    | Ok v st' =>
        v = VRef 0
        ∧ get_index (st_heap st') (get_prop (st_heap st') v "b") 0 = VRef 2
        ∧ get_index (st_heap st') (get_prop (st_heap st') (VRef 3) "b") 0
          = VNull
    | Err _ => False
    end.
Proof. repeat split; vm_compute; repeat split; discriminate. Qed.

(** C4. The object under [b] of [previousResult] has no property [d] before
    the call and has one after it: the first fragment's result is
    [previousResult] itself, [merge] copies its [b] into the accumulator by
    reference, and the second fragment's result is merged into that object. *)
Theorem previous_result_is_mutated :
  get_prop Scenario.shared_heap (VRef 0) "b" = VRef 1
  ∧ hasOwnProperty Scenario.shared_heap (VRef 1) "d" = false
  ∧ match
      graphql 5 Scenario.read_root (Scenario.query Scenario.shared_query)
              (VRef 2) VNull [] (Scenario.options (VRef 0))
              (Scenario.start Scenario.shared_heap)
    with
    | Ok v st' =>
        get_prop (st_heap st') (VRef 0) "b" = VRef 1
        ∧ get_prop (st_heap st') (VRef 1) "d" = VNum 2
    | Err _ => False
    end.
Proof. vm_compute. repeat split. Qed.

(** ** Counterexamples to the claims as they are worded *)

(** C1 as worded fails with a result mapper: all three fields return what
    [previousResult] holds, and the value returned is the mapper's. *)
Lemma identity_is_lost_with_a_result_mapper :
  match
    executeSelectionSet 2 Scenario.flat_query (VRef 1) (VRef 0)
      (Scenario.context (Some Scenario.keep_fields) Scenario.always)
      (Scenario.start Scenario.flat_heap)
  with
  | Ok v st' =>
      nullish (VRef 0) = false
      ∧ fields_identical (VRef 0)
          (new_events (Scenario.start Scenario.flat_heap) st') = true
      ∧ v ≠ VRef 0
  | Err _ => False
  end.
Proof. vm_compute. repeat split. discriminate. Qed.

(** C5 as worded fails for a spread the evaluation never comes to: the field
    [h] resolves to [null], its selection set, which holds the spread of the
    unknown fragment, is not applied, and the execution returns a value. *)
Lemma unreached_unknown_fragment_raises_nothing :
  fragment_lookup "Missing" (createFragmentMap []) = None
  ∧ shouldInclude (IsFragmentSpread "Missing" []) [] = true
  ∧ match
      graphql 3 Scenario.read_root
              (Scenario.query
                 [Scenario.node "h" [IsFragmentSpread "Missing" []]])
              (VRef 3) VNull [] (Scenario.options VUndefined)
              (Scenario.start Scenario.deep_heap)
    with
    | Ok v st' => get_prop (st_heap st') v "h" = VNull
    | Err _ => False
    end.
Proof. vm_compute. repeat split. Qed.

(** C6 as worded fails when [previousResult] is returned: [a] is excluded by
    [@skip(if: true)], and the object returned has the key [a]. *)
Lemma excluded_key_is_in_the_previous_result :
  shouldInclude (Scenario.skipped "a") [] = false
  ∧ match
      graphql 2 Scenario.read_root
              (Scenario.query [Scenario.skipped "a"; Scenario.leaf "b"])
              (VRef 1) VNull [] (Scenario.options (VRef 0))
              (Scenario.start Scenario.flat_heap)
    with
    | Ok v st' => hasOwnProperty (st_heap st') v "a" = true
    | Err _ => False
    end.
Proof. vm_compute. split; reflexivity. Qed.


(** C8 as worded fails for a mapper that returns [previousResult]: here the
    root value is the previous result, the mapper returns the root value, and
    the evaluation returns [previousResult] by identity. *)
Lemma result_mapper_may_return_the_previous_result :
  match
    executeSelectionSet 2 Scenario.flat_query (VRef 0) (VRef 0)
      (Scenario.context (Some Scenario.keep_root) Scenario.always)
      (Scenario.start Scenario.flat_heap)
  with
  | Ok v st' => v = VRef 0
  | Err _ => False
  end.
Proof. vm_compute. reflexivity. Qed.

(** ** The theorems at work on the scenarios *)

Lemma read_root_context_preserves mapper matcher :
  (∀ m, mapper = Some m → m = Scenario.keep_fields ∨ m = Scenario.keep_root) →
  callbacks_preserve (Scenario.context mapper matcher).
Proof.
  intros Hm. split.
  - intros fieldName rootValue args info h a h'. simpl.
    unfold Scenario.read_root. destruct (nullish rootValue); [done|].
    intros [= _ <-]. apply heap_extends_refl.
  - intros m acc rootValue Hmapper h a h'. simpl in Hmapper.
    destruct (Hm _ Hmapper) as [-> | ->]; intros [= _ <-];
      apply heap_extends_refl.
Qed.

(** The first test of the repository: nothing changed in a flat object. *)
Lemma identity_preservation_witness :
  fields_identical (VRef 0)
    [EvResolve "a" (VRef 1) [] {| isLeaf := true; resultKey := "a" |};
     EvField (VRef 0) "a" (VNum 1) (VNum 1);
     EvResolve "b" (VRef 1) [] {| isLeaf := true; resultKey := "b" |};
     EvField (VRef 0) "b" (VNum 2) (VNum 2);
     EvResolve "c" (VRef 1) [] {| isLeaf := true; resultKey := "c" |};
     EvField (VRef 0) "c" (VNum 3) (VNum 3)] = true
  ∧ executeSelectionSet 7 Scenario.flat_query (VRef 1) (VRef 0)
      (Scenario.context None Scenario.always)
      (Scenario.start Scenario.flat_heap)
    = Ok (VRef 0)
         (mkState (Scenario.flat_heap ++ [CObj [("a", VNum 1); ("b", VNum 2);
                                                ("c", VNum 3)]])
            [EvResolve "a" (VRef 1) [] {| isLeaf := true; resultKey := "a" |};
             EvField (VRef 0) "a" (VNum 1) (VNum 1);
             EvResolve "b" (VRef 1) [] {| isLeaf := true; resultKey := "b" |};
             EvField (VRef 0) "b" (VNum 2) (VNum 2);
             EvResolve "c" (VRef 1) [] {| isLeaf := true; resultKey := "c" |};
             EvField (VRef 0) "c" (VNum 3) (VNum 3)]).
Proof.
  split; [reflexivity|].
  apply (identity_preservation 2
           (Scenario.context None Scenario.always) Scenario.flat_query
           (VRef 1) (VRef 0) (Scenario.start Scenario.flat_heap) (VRef 0)).
  - reflexivity.
  - reflexivity.
  - vm_compute. reflexivity.
  - vm_compute. reflexivity.
  - lia.
Defined.

Lemma unknown_fragment_is_fatal_witness :
  graphql 4 Scenario.read_root (Scenario.query Scenario.missing_query)
          (VRef 0) VNull [] (Scenario.options VUndefined)
          (Scenario.start Scenario.missing_heap)
  = Err (NoFragmentNamed "Missing")
  ∧ graphql 4 Scenario.read_root (Scenario.query Scenario.missing_list_query)
            (VRef 2) VNull [] (Scenario.options VUndefined)
            (Scenario.start Scenario.missing_heap)
    = Err (NoFragmentNamed "Missing").
Proof.
  split.
  - eapply (unknown_fragment_is_fatal 4 Scenario.read_root
              (Scenario.query Scenario.missing_query) (VRef 0) VNull []
              (Scenario.options VUndefined)
              (Scenario.start Scenario.missing_heap)
              0 [] "Missing" [] []).
    + eapply (inside_field _ _ 2 [Scenario.leaf "x"]
                (mkField "h" None [] []
                   (Some [IsInlineFragment (Some "T") []
                            [IsFragmentSpread "Missing" []]]))
                []).
      * vm_compute. reflexivity.
      * reflexivity.
      * reflexivity.
      * vm_compute. reflexivity.
      * reflexivity.
      * eapply inside_object; [reflexivity | reflexivity |].
        eapply (inside_fragment _ _ 1 []
                  (IsInlineFragment (Some "T") []
                     [IsFragmentSpread "Missing" []])
                  []).
        -- vm_compute. reflexivity.
        -- reflexivity.
        -- reflexivity.
        -- reflexivity.
        -- reflexivity.
        -- vm_compute. apply inside_here.
    + vm_compute. reflexivity.
    + reflexivity.
    + reflexivity.
    + apply (bool_decide_unpack _). vm_compute. exact I.
  - eapply (unknown_fragment_is_fatal 4 Scenario.read_root
              (Scenario.query Scenario.missing_list_query) (VRef 2) VNull []
              (Scenario.options VUndefined)
              (Scenario.start Scenario.missing_heap)
              0 [] "Missing" [] []).
    + eapply (inside_field _ _ 2 []
                (mkField "hs" None [] [] (Some [IsFragmentSpread "Missing" []]))
                []).
      * vm_compute. reflexivity.
      * reflexivity.
      * reflexivity.
      * vm_compute. reflexivity.
      * reflexivity.
      * eapply (inside_list _ _ 1 _ _ _ _ 1).
        -- reflexivity.
        -- vm_compute. lia.
        -- vm_compute. reflexivity.
        -- vm_compute. reflexivity.
        -- discriminate.
        -- eapply inside_object; [reflexivity | reflexivity |].
           vm_compute. apply inside_here.
    + vm_compute. reflexivity.
    + reflexivity.
    + reflexivity.
    + apply (bool_decide_unpack _). vm_compute. exact I.
Defined.

Lemma excluded_selection_contributes_nothing_witness :
  shouldInclude (Scenario.skipped "b") [] = false
  ∧ executeSelectionSet 2
      ([Scenario.leaf "a"] ++ Scenario.skipped "b" :: [Scenario.leaf "c"])
      (VRef 1) VNull (Scenario.context None Scenario.always)
      (Scenario.start Scenario.flat_heap)
    = executeSelectionSet 2 ([Scenario.leaf "a"] ++ [Scenario.leaf "c"])
        (VRef 1) VNull (Scenario.context None Scenario.always)
        (Scenario.start Scenario.flat_heap).
Proof.
  split; [reflexivity|].
  apply (excluded_selection_contributes_nothing 2
           (Scenario.context None Scenario.always) (VRef 1) VNull
           [Scenario.leaf "a"] (Scenario.skipped "b") [Scenario.leaf "c"]).
  reflexivity.
Defined.


Lemma result_mapper_output_is_returned_witness :
  ∃ h, Scenario.keep_fields (VRef 2) (VRef 1) h
       = Ok (VRef 2)
            (Scenario.flat_heap ++ [CObj [("a", VNum 1); ("b", VNum 2);
                                          ("c", VNum 3)]]).
Proof.
  apply (result_mapper_output_is_returned 1
           (Scenario.context (Some Scenario.keep_fields) Scenario.always)
           Scenario.keep_fields Scenario.flat_query (VRef 1) (VRef 0)
           (Scenario.start Scenario.flat_heap) eq_refl)
    with (st' := mkState (Scenario.flat_heap ++ [CObj [("a", VNum 1);
                                                      ("b", VNum 2);
                                                      ("c", VNum 3)]])
                   [EvResolve "a" (VRef 1) []
                      {| isLeaf := true; resultKey := "a" |};
                    EvField (VRef 0) "a" (VNum 1) (VNum 1);
                    EvResolve "b" (VRef 1) []
                      {| isLeaf := true; resultKey := "b" |};
                    EvField (VRef 0) "b" (VNum 2) (VNum 2);
                    EvResolve "c" (VRef 1) []
                      {| isLeaf := true; resultKey := "c" |};
                    EvField (VRef 0) "c" (VNum 3) (VNum 3)]).
  vm_compute. reflexivity.
Defined.

Lemma executeField_returns_resolver_result_verbatim_witness :
  executeField 1 (mkField "a" None [] [] None) (VRef 1) (VRef 0)
    (Scenario.context None Scenario.always) (Scenario.start Scenario.flat_heap)
  = Ok (VNum 1)
       (mkState Scenario.flat_heap
          [EvResolve "a" (VRef 1) [] {| isLeaf := true; resultKey := "a" |}])
  ∧ executeField 1 (mkField "h" None [] [] (Some [Scenario.leaf "x"]))
      (VRef 3) VNull
      (Scenario.context None Scenario.always) (Scenario.start Scenario.deep_heap)
    = Ok VNull
         (mkState Scenario.deep_heap
            [EvResolve "h" (VRef 3) [] {| isLeaf := false; resultKey := "h" |}]).
Proof.
  split.
  - apply (executeField_returns_resolver_result_verbatim 0
             (mkField "a" None [] [] None) (VRef 1) (VRef 0)
             (Scenario.context None Scenario.always)
             (Scenario.start Scenario.flat_heap) (VNum 1) Scenario.flat_heap).
    + reflexivity.
    + left. reflexivity.
  - apply (executeField_returns_resolver_result_verbatim 0
             (mkField "h" None [] [] (Some [Scenario.leaf "x"])) (VRef 3) VNull
             (Scenario.context None Scenario.always)
             (Scenario.start Scenario.deep_heap) VNull Scenario.deep_heap).
    + reflexivity.
    + right. reflexivity.
Defined.

(** The first test again: the key [d] of [previousResult], which the query
    does not select, is in the result. *)
Lemma previous_result_is_not_pruned_witness :
  hasOwnProperty Scenario.flat_heap (VRef 0) "d" = true
  ∧ hasOwnProperty
      (Scenario.flat_heap ++ [CObj [("a", VNum 1); ("b", VNum 2); ("c", VNum 3)]])
      (VRef 0) "d" = true
  ∧ get_prop
      (Scenario.flat_heap ++ [CObj [("a", VNum 1); ("b", VNum 2); ("c", VNum 3)]])
      (VRef 0) "d" = VNum 4.
Proof.
  split; [reflexivity|].
  apply (previous_result_is_not_pruned 2
           (Scenario.context None Scenario.always) Scenario.flat_query
           (VRef 1) (VRef 0) (Scenario.start Scenario.flat_heap)
           (mkState (Scenario.flat_heap ++ [CObj [("a", VNum 1); ("b", VNum 2);
                                                  ("c", VNum 3)]])
              [EvResolve "a" (VRef 1) [] {| isLeaf := true; resultKey := "a" |};
               EvField (VRef 0) "a" (VNum 1) (VNum 1);
               EvResolve "b" (VRef 1) [] {| isLeaf := true; resultKey := "b" |};
               EvField (VRef 0) "b" (VNum 2) (VNum 2);
               EvResolve "c" (VRef 1) [] {| isLeaf := true; resultKey := "c" |};
               EvField (VRef 0) "c" (VNum 3) (VNum 3)])).
  - apply read_root_context_preserves. intros m [=].
  - vm_compute. reflexivity.
  - reflexivity.
Defined.

(** * Further properties of the engine *)

(** ** What an evaluation can return *)

Lemma selection_callback_keeps_changed exec_ss exec_f merge_ rootValue
    previousResult ctx result s st m st' :
  selection_callback exec_ss exec_f merge_ rootValue previousResult ctx result
                     s true st = Ok m st' →
  m = true.
Proof.
  unfold selection_callback. intros Hstep.
  destruct (negb (shouldInclude s (variableValues ctx))).
  { by apply ret_Ok in Hstep as [-> _]. }
  assert (Hfrag : ∀ tc ss,
    fragment_callback exec_ss merge_ rootValue previousResult ctx result true
                      tc ss st = Ok m st' → m = true).
  { intros tc ss Hfc. unfold fragment_callback in Hfc.
    apply bind_Ok in Hfc as (t & sta & _ & Hfc).
    apply bind_Ok in Hfc as (h & stb & _ & Hfc).
    destruct (fragmentMatcher ctx _ _ _ _).
    - apply bind_Ok in Hfc as (fragmentResult & stc & _ & Hfc).
      apply bind_Ok in Hfc as (w & std & _ & [-> _]%ret_Ok).
      by destruct (negb _).
    - by apply ret_Ok in Hfc as [-> _]. }
  destruct s as [field|tc ds ss|name ds].
  - apply bind_Ok in Hstep as (fieldResult & sta & _ & Hstep).
    apply bind_Ok in Hstep as (h & stb & _ & Hstep).
    apply bind_Ok in Hstep as (u & stc & _ & Hstep).
    apply bind_Ok in Hstep as (u' & std & _ & [-> _]%ret_Ok).
    by destruct (_ && _).
  - exact (Hfrag _ _ Hstep).
  - destruct (fragment_lookup name (fragmentMap ctx));
      [exact (Hfrag _ _ Hstep) | done].
Qed.

Lemma forEach_keeps_changed exec_ss exec_f merge_ rootValue previousResult ctx
    result selections st m st' :
  forEach (selection_callback exec_ss exec_f merge_ rootValue previousResult
                              ctx result) selections true st = Ok m st' →
  m = true.
Proof.
  revert st. induction selections as [|s selections IH]; intros st Hrun.
  - by apply ret_Ok in Hrun as [-> _].
  - simpl in Hrun. apply bind_Ok in Hrun as (m1 & st1 & Hstep & Hrest).
    apply selection_callback_keeps_changed in Hstep as ->. by eapply IH.
Qed.

(** X3. Without a result mapper an evaluation returns one of two values:
    [previousResult] itself, or the object it allocated when it started.
    When [previousResult] is [null] or [undefined] it is the new object,
    whatever the selections did: the changed flag is never taken back. *)
Theorem evaluation_returns_previous_or_fresh
    d ctx selectionSet rootValue previousResult st v st' :
  resultMapper ctx = None →
  executeSelectionSet d selectionSet rootValue previousResult ctx st = Ok v st' →
  (v = previousResult ∨ v = VRef (length (st_heap st)))
  ∧ (nullish previousResult = true → v = VRef (length (st_heap st))).
Proof.
  intros Hmapper Hrun. destruct d as [|d]; [done|].
  rewrite executeSelectionSet_unfold, Hmapper in Hrun.
  apply bind_Ok in Hrun as (result & st1 & Halloc & Hrun).
  apply bind_Ok in Hrun as (modified & st2 & Hloop & [-> _]%ret_Ok).
  injection Halloc as <- _. split.
  - destruct modified; [by right | by left].
  - intros Hnull. rewrite Hnull in Hloop.
    by apply forEach_keeps_changed in Hloop as ->.
Qed.

(** ** Resolver errors *)

Lemma failing_field_step d ctx rootValue previousResult result field
    resultModified st e :
  shouldInclude (IsField field) (variableValues ctx) = true →
  resolver ctx (field_name field) rootValue
           (argumentsObjectFromField field (variableValues ctx))
           (contextValue ctx) (field_info field) (st_heap st) = Err e →
  selection_callback (executeSelectionSet (S d)) (executeField (S d))
    (merge (S d)) rootValue previousResult ctx result (IsField field)
    resultModified st = Err e.
Proof.
  intros Hincl Hfail. unfold selection_callback. rewrite Hincl. cbn [negb].
  rewrite executeField_unfold. cbv zeta.
  unfold bind, log, call. cbn [st_heap]. by rewrite Hfail.
Qed.

(** X4. An error the resolver raises is not caught.  When an evaluation
    comes to a field that is not excluded, the selections before it having
    run through, and the resolver, called on the heap as it is then, raises,
    then the evaluation of the selection set the field is in raises that
    error, and so does every evaluation around it, through fields, lists and
    fragments, up to the one [graphql] makes: none returns a value. *)
Theorem resolver_error_aborts_the_evaluation
    ctx outer d pre field post rootValue previousResult st modified st1 e :
  inside ctx
    (mkEvaluation (S (S d)) (pre ++ IsField field :: post) rootValue
                  previousResult st)
    outer →
  walk (S d) ctx pre rootValue previousResult st = Ok modified st1 →
  shouldInclude (IsField field) (variableValues ctx) = true →
  resolver ctx (field_name field) rootValue
           (argumentsObjectFromField field (variableValues ctx))
           (contextValue ctx) (field_info field) (st_heap st1) = Err e →
  run ctx outer = Err e.
Proof.
  intros Hinside Hwalk Hincl Hfail.
  eapply error_comes_out; [|exact Hinside].
  unfold run. cbn [ev_depth ev_selectionSet ev_rootValue ev_previousResult
                   ev_state].
  eapply walk_raises_at; [exact Hwalk|].
  by apply failing_field_step.
Qed.

(** ** Named fragments *)

Lemma forEach_replace {A B} (f : A → B → M B) l1 x y l2 b st :
  (∀ b' st', f x b' st' = f y b' st') →
  forEach f (l1 ++ x :: l2) b st = forEach f (l1 ++ y :: l2) b st.
Proof.
  intros Hxy. rewrite !forEach_app. unfold bind.
  destruct (forEach f l1 b st) as [b' st'|e]; [|done].
  simpl. unfold bind. by rewrite Hxy.
Qed.

(** X8. A spread of a fragment the fragment map has evaluates as the inline
    fragment with the definition's type condition and selection set (and the
    spread's directives) in its place. *)
Theorem named_spread_is_its_inline_fragment
    d ctx rootValue previousResult pre name directives definition post st :
  fragment_lookup name (fragmentMap ctx) = Some definition →
  executeSelectionSet d (pre ++ IsFragmentSpread name directives :: post)
    rootValue previousResult ctx st
  = executeSelectionSet d
      (pre ++ IsInlineFragment (Some (fragment_typeCondition definition))
                directives (fragment_selectionSet definition) :: post)
      rootValue previousResult ctx st.
Proof.
  intros Hdef. destruct d as [|d]; [done|].
  rewrite !executeSelectionSet_unfold. unfold bind at 1 3.
  destruct (alloc (CObj []) st) as [result st1|e]; [|done].
  unfold bind.
  rewrite (forEach_replace _ pre (IsFragmentSpread name directives)
             (IsInlineFragment (Some (fragment_typeCondition definition))
                directives (fragment_selectionSet definition))); [done|].
  intros m st'. unfold selection_callback, shouldInclude. simpl.
  by rewrite Hdef.
Qed.

(** ** Selection sets of leaf fields *)

Lemma get_prop_snoc h c v k :
  allocated h v = true → get_prop (h ++ [c]) v k = get_prop h v k.
Proof.
  destruct v as [| | | | |l]; try done. simpl.
  intros Hl%bool_decide_eq_true. unfold get_prop, heap_cell.
  by rewrite lookup_app_l.
Qed.

Lemma set_prop_snoc h ps t k v :
  set_prop (VRef (length h)) k v (mkState (h ++ [CObj ps]) t)
  = Ok tt (mkState (h ++ [CObj (alist_set k v ps)]) t).
Proof.
  unfold set_prop. cbn [st_heap st_trace].
  rewrite (list_lookup_middle h [] (CObj ps) (length h) eq_refl).
  replace (length h) with (length h + 0)%nat at 1 by lia.
  by rewrite insert_app_r.
Qed.

(** One leaf field, for a resolver that returns [value] and leaves the heap
    as it is. *)
Lemma leaf_field_step d ctx value field rootValue previousResult h ps t m :
  field_selectionSet field = None →
  allocated h previousResult = true →
  resolver ctx (field_name field) rootValue
           (argumentsObjectFromField field (variableValues ctx))
           (contextValue ctx) (field_info field) (h ++ [CObj ps])
  = Ok value (h ++ [CObj ps]) →
  selection_callback (executeSelectionSet (S d)) (executeField (S d))
    (merge (S d)) rootValue previousResult ctx (length h) (IsField field) m
    (mkState (h ++ [CObj ps]) t)
  = if included ctx field then
      let key := resultKeyNameFromField field in
      let slot := get_prop h previousResult key in
      Ok (if truthy previousResult && negb (strict_eq value slot)
          then true else m)
         (mkState
            (h ++ [CObj (if negb (strict_eq value VUndefined)
                         then alist_set key value ps else ps)])
            (t ++ [resolve_event ctx rootValue field;
                   EvField previousResult key value slot]))
    else Ok m (mkState (h ++ [CObj ps]) t).
Proof.
  intros Hleaf Halloc Hres. unfold selection_callback, included.
  destruct (shouldInclude (IsField field) (variableValues ctx)); [|done].
  cbn [negb]. rewrite executeField_unfold. cbv zeta.
  unfold bind at 1 2 3. unfold log at 1. unfold call. cbn [st_heap st_trace].
  rewrite Hres, Hleaf. unfold ret at 1. unfold bind at 1.
  unfold get_heap. cbn [st_heap]. unfold bind at 1. unfold log.
  cbn [st_heap st_trace]. rewrite (get_prop_snoc _ _ _ _ Halloc).
  unfold bind. destruct (negb (strict_eq value VUndefined)).
  - rewrite set_prop_snoc. unfold ret, resolve_event.
    by rewrite <- app_assoc.
  - unfold ret, resolve_event. by rewrite <- app_assoc.
Qed.

Lemma leaf_fields_walk d ctx value rootValue previousResult h :
  allocated h previousResult = true →
  ∀ fields ps,
    Forall (λ f, field_selectionSet f = None) fields →
    (∀ pre f post, fields = pre ++ f :: post → included ctx f = true →
       resolver ctx (field_name f) rootValue
                (argumentsObjectFromField f (variableValues ctx))
                (contextValue ctx) (field_info f)
                (h ++ [CObj (stored_fields ctx value pre ps)])
       = Ok (value f) (h ++ [CObj (stored_fields ctx value pre ps)])) →
    ∀ t m,
      forEach (selection_callback (executeSelectionSet (S d))
                 (executeField (S d)) (merge (S d)) rootValue previousResult
                 ctx (length h))
              (IsField <$> fields) m (mkState (h ++ [CObj ps]) t)
      = Ok (m || truthy previousResult
                 && fields_changed ctx value h previousResult fields)
           (mkState (h ++ [CObj (stored_fields ctx value fields ps)])
              (t ++ flat_events ctx value h rootValue previousResult fields)).
Proof.
  intros Halloc fields.
  induction fields as [|f fields IH]; intros ps Hleaf Hres t m.
  - simpl. unfold ret. by rewrite app_nil_r, andb_false_r, orb_false_r.
  - apply Forall_cons in Hleaf as [Hf Hleaf]. cbn [fmap list_fmap forEach].
    unfold bind.
    unfold stored_fields, fields_changed, flat_events in *.
    cbn [foldl existsb flat_map].
    destruct (included ctx f) eqn:Hincl; cbn [andb].
    + rewrite (leaf_field_step d ctx (value f) f); [|done|done|].
      2: { apply (Hres [] f fields eq_refl Hincl). }
      rewrite Hincl. cbv beta iota zeta.
      rewrite IH; [|done|].
      2: { intros pre f' post -> Hincl'.
           specialize (Hres (f :: pre) f' post eq_refl Hincl').
           cbn [foldl] in Hres. by rewrite Hincl in Hres. }
      rewrite <- app_assoc. f_equal.
      destruct m, (truthy previousResult), (negb (strict_eq (value f) _));
        simpl; try done; by destruct (existsb _ _).
    + rewrite excluded_selection_step by done.
      rewrite IH; [done|done|].
      intros pre f' post -> Hincl'.
      specialize (Hres (f :: pre) f' post eq_refl Hincl').
      cbn [foldl] in Hres. by rewrite Hincl in Hres.
Qed.

Lemma object_or_falsy_allocated h v :
  object_or_falsy h v = true → allocated h v = true.
Proof.
  destruct v as [| | | | |l]; try done. simpl.
  destruct (h !! l) as [c|] eqn:El; [|done]. intros _.
  apply bool_decide_eq_true. by eapply lookup_lt_Some.
Qed.

(** X2. A selection set of leaf fields, evaluated without a result mapper
    through a resolver that returns [value f] for each field [f] and leaves
    the heap alone: the call allocates one object and stores each included
    field whose value is not [undefined] under its result key, in selection
    order.  It returns that object when [previousResult] is [null] or
    [undefined], or is truthy and differs from it at some included field, and
    [previousResult] itself otherwise.  This is for a [previousResult] that
    is an object or is falsy, and for result keys that name no inherited
    member (the comparison would read [previousResult.constructor] and the
    like from the prototype, and [__proto__] would not be stored). *)
Theorem leaf_selection_set_result
    d ctx value fields rootValue previousResult h t :
  resultMapper ctx = None →
  Forall (λ f, field_selectionSet f = None) fields →
  Forall (λ f, plain_key (resultKeyNameFromField f) = true) fields →
  object_or_falsy h previousResult = true →
  (∀ pre f post, fields = pre ++ f :: post → included ctx f = true →
     resolver ctx (field_name f) rootValue
              (argumentsObjectFromField f (variableValues ctx))
              (contextValue ctx) (field_info f)
              (h ++ [CObj (stored_fields ctx value pre [])])
     = Ok (value f) (h ++ [CObj (stored_fields ctx value pre [])])) →
  executeSelectionSet (S (S d)) (IsField <$> fields) rootValue previousResult
                      ctx (mkState h t)
  = Ok (if nullish previousResult
           || truthy previousResult
              && fields_changed ctx value h previousResult fields
        then VRef (length h) else previousResult)
       (mkState (h ++ [CObj (stored_fields ctx value fields [])])
          (t ++ flat_events ctx value h rootValue previousResult fields)).
Proof.
  intros Hmapper Hleaf _ Halloc%object_or_falsy_allocated Hres.
  rewrite executeSelectionSet_unfold, Hmapper. unfold bind, alloc.
  cbn [st_heap st_trace].
  by rewrite (leaf_fields_walk d ctx value rootValue previousResult h Halloc
                fields [] Hleaf Hres).
Qed.

Lemma leaf_fields_resolver_calls d ctx fields rootValue previousResult result :
  Forall (λ f, field_selectionSet f = None) fields →
  ∀ m st m' st',
    forEach (selection_callback (executeSelectionSet d) (executeField d)
               (merge d) rootValue previousResult ctx result)
            (IsField <$> fields) m st = Ok m' st' →
    ∃ evs, st_trace st' = st_trace st ++ evs
           ∧ List.filter is_resolve evs
             = resolve_event ctx rootValue <$> List.filter (included ctx) fields.
Proof.
  induction 1 as [|f fields Hf _ IH]; intros m st m' st' Hrun.
  - apply ret_Ok in Hrun as [_ ->]. exists []. by rewrite app_nil_r.
  - cbn [fmap list_fmap forEach] in Hrun.
    apply bind_Ok in Hrun as (m1 & st1 & Hstep & Hrest).
    destruct (IH _ _ _ _ Hrest) as (evs & Htr & Hevs).
    unfold selection_callback in Hstep. cbn [List.filter].
    fold (included ctx f) in Hstep. destruct (included ctx f); cbn [negb] in Hstep.
    2: { apply ret_Ok in Hstep as [_ ->]. by exists evs. }
    apply bind_Ok in Hstep as (fieldResult & sta & Hexec & Hstep).
    apply bind_Ok in Hstep as (h & stb & [-> ->]%get_heap_Ok & Hstep).
    apply bind_Ok in Hstep as (u & stb & Hlog & Hstep).
    apply bind_Ok in Hstep as (u' & stc & Hstore & [_ ->]%ret_Ok).
    destruct d as [|d]; [done|].
    rewrite executeField_unfold in Hexec. cbv zeta in Hexec.
    apply bind_Ok in Hexec as (u0 & st0 & Hlog0 & Hexec).
    apply bind_Ok in Hexec as (r & st2 & Hcall & Hexec).
    rewrite Hf in Hexec. apply ret_Ok in Hexec as [_ ->].
    apply call_trace in Hcall. injection Hlog0 as _ <-.
    cbn [st_trace] in Hcall. injection Hlog as _ <-.
    assert (st_trace stc
            = st_trace st ++ [resolve_event ctx rootValue f;
                              EvField previousResult (resultKeyNameFromField f)
                                fieldResult
                                (get_prop (st_heap st2) previousResult
                                          (resultKeyNameFromField f))]) as Hstc.
    { assert (st_trace stc
              = st_trace st2 ++ [EvField previousResult
                                   (resultKeyNameFromField f) fieldResult
                                   (get_prop (st_heap st2) previousResult
                                             (resultKeyNameFromField f))]) as ->.
      { destruct (negb (strict_eq fieldResult VUndefined)).
        - by rewrite (set_prop_trace _ _ _ _ _ _ Hstore).
        - by apply ret_Ok in Hstore as [_ ->]. }
      rewrite Hcall. by rewrite <- app_assoc. }
    eexists. split.
    + rewrite Htr, Hstc, <- app_assoc. reflexivity.
    + rewrite List.filter_app. cbn [List.filter is_resolve resolve_event app].
      rewrite Hevs. reflexivity.
Qed.

(** X1. In an evaluation of a selection set of leaf fields that returns, the
    resolver is called once for each field the directive filter lets through
    and for no other, in selection order, each time with the field's name,
    the root value, the field's arguments and its info descriptor. *)
Theorem resolver_is_called_once_per_field_in_order
    d ctx fields rootValue previousResult st v st' :
  Forall (λ f, field_selectionSet f = None) fields →
  executeSelectionSet d (IsField <$> fields) rootValue previousResult ctx st
  = Ok v st' →
  List.filter is_resolve (new_events st st')
  = resolve_event ctx rootValue <$> List.filter (included ctx) fields.
Proof.
  intros Hleaf Hrun. destruct d as [|d]; [done|].
  rewrite executeSelectionSet_unfold in Hrun.
  apply bind_Ok in Hrun as (result & st1 & Halloc & Hrun).
  apply bind_Ok in Hrun as (modified & st2 & Hloop & Hrun).
  destruct (leaf_fields_resolver_calls d ctx fields rootValue previousResult
              result Hleaf _ _ _ _ Hloop) as (evs & Htr & Hevs).
  injection Halloc as _ <-. cbn [st_trace] in Htr.
  assert (st_trace st' = st_trace st2) as Hlast.
  { destruct (resultMapper ctx).
    - by eapply call_trace.
    - by apply ret_Ok in Hrun as [_ ->]. }
  unfold new_events. by rewrite Hlast, Htr, drop_app_length.
Qed.

(** ** What stays on the heap *)




(** ** [merge] *)


Lemma alist_lookup_elem_of k ps :
  is_Some (alist_lookup k ps) ↔ k ∈ ps.*1.
Proof.
  induction ps as [|[k0 v0] ps IH]; simpl.
  - split; [by intros [? [=]] | by intros ?%elem_of_nil].
  - destruct (decide (k = k0)) as [->|Hne].
    + split; [intros _; by left | by eauto].
    + rewrite IH. split; [by right|].
      intros [?|?]%elem_of_cons; [done|done].
Qed.




Lemma bind_run {A B} (m : M A) (k : A → M B) st a st1 :
  m st = Ok a st1 → bind m k st = k a st1.
Proof. unfold bind. by intros ->. Qed.

Lemma alist_lookup_not_elem_of k ps : k ∉ ps.*1 → alist_lookup k ps = None.
Proof.
  intros Hk. destruct (alist_lookup k ps) eqn:E; [|done].
  destruct Hk. apply alist_lookup_elem_of. by rewrite E.
Qed.

Lemma alist_lookup_middle k v pre suf :
  k ∉ pre.*1 → alist_lookup k (pre ++ (k, v) :: suf) = Some v.
Proof.
  induction pre as [|[k0 v0] pre IH]; simpl; intros Hk.
  - by rewrite decide_True.
  - apply not_elem_of_cons in Hk as [Hne Hk]. rewrite decide_False by done.
    by apply IH.
Qed.

Lemma alist_set_not_elem_of k v ps :
  k ∉ ps.*1 → alist_set k v ps = ps ++ [(k, v)].
Proof.
  induction ps as [|[k0 v0] ps IH]; simpl; intros Hk; [done|].
  apply not_elem_of_cons in Hk as [Hne Hk]. rewrite decide_False by done.
  by rewrite IH.
Qed.

Lemma plain_key_not_inherited k :
  plain_key k = true → k ≠ "hasOwnProperty" ∧ k ≠ "__proto__".
Proof.
  intros Hk. split; intros ->; by vm_compute in Hk.
Qed.

Lemma plain_keys_no_method (ks : list string) :
  Forall (λ k, plain_key k = true) ks → "hasOwnProperty" ∉ ks.
Proof.
  intros Hks Hin. rewrite Forall_forall in Hks.
  by destruct (plain_key_not_inherited _ (Hks _ Hin)).
Qed.

Lemma call_hasOwnProperty_run v k st :
  nullish v = false →
  hasOwnProperty (st_heap st) v "hasOwnProperty" = false →
  call_hasOwnProperty v k st = Ok (hasOwnProperty (st_heap st) v k) st.
Proof. unfold call_hasOwnProperty. by intros -> ->. Qed.

(** The second walk of [merge] into an object that has none of the keys to
    come. *)
Lemma merge_copy_walk l m h t ps :
  l ≠ m → (l < length h)%nat → h !! m = Some (CObj ps) →
  "hasOwnProperty" ∉ ps.*1 →
  ∀ suf pre, ps = pre ++ suf → NoDup ps.*1 →
    forEach_ (λ srcKey,
                let* has := call_hasOwnProperty (VRef l) srcKey in
                let* h := get_heap in
                if has then ret tt
                else set_prop (VRef l) srcKey (get_prop h (VRef m) srcKey))
             suf.*1 (mkState (<[l := CObj pre]> h) t)
    = Ok tt (mkState (<[l := CObj ps]> h) t).
Proof.
  intros Hlm Hl Hm Hmethod.
  induction suf as [|[k v] suf IH]; intros pre Hps Hnd.
  - rewrite app_nil_r in Hps. by subst pre.
  - assert (k ∉ pre.*1) as Hk.
    { rewrite Hps, fmap_app in Hnd. apply NoDup_app in Hnd as (_ & Hdisj & _).
      intros Hin. apply (Hdisj _ Hin). by left. }
    assert ("hasOwnProperty" ∉ pre.*1) as Hpre.
    { intros Hin. apply Hmethod. rewrite Hps, fmap_app.
      apply elem_of_app. by left. }
    assert (hasOwnProperty (<[l := CObj pre]> h) (VRef l) "hasOwnProperty"
            = false) as Hown.
    { unfold hasOwnProperty, heap_cell.
      rewrite list_lookup_insert_eq by done. simpl.
      rewrite (alist_lookup_not_elem_of _ _ Hpre).
      by rewrite bool_decide_eq_false_2 by (by intros [? [=]]). }
    unfold forEach_. cbn [fmap list_fmap forEach fst].
    unfold bind at 1.
    rewrite (bind_run _ _ _ _ _
               (call_hasOwnProperty_run (VRef l) k
                  (mkState (<[l := CObj pre]> h) t) eq_refl Hown)).
    unfold bind at 1. unfold get_heap at 1. cbn [st_heap].
    unfold hasOwnProperty, get_prop, heap_cell.
    rewrite list_lookup_insert_eq by done.
    rewrite list_lookup_insert_ne by done. rewrite Hm. simpl.
    rewrite (alist_lookup_not_elem_of _ _ Hk).
    rewrite bool_decide_eq_false_2 by (by intros [? [=]]).
    rewrite Hps at 1. rewrite (alist_lookup_middle _ _ _ _ Hk). simpl.
    unfold set_prop. cbn [st_heap st_trace].
    rewrite list_lookup_insert_eq by done.
    rewrite list_insert_insert_eq, (alist_set_not_elem_of _ _ _ Hk).
    apply (IH (pre ++ [(k, v)])); [|done].
    by rewrite <- app_assoc.
Qed.

(** X7. Merging an object into an object that has no property yet copies
    the source's properties into it in their order, each value as it is: a
    property that holds an object or a list is shared with the source, not
    cloned.  Nothing else on the heap changes.  The keys are taken to name
    no inherited member: an own property [hasOwnProperty] makes the call of
    that method raise, and assigning [__proto__] adds no property. *)
Theorem merge_into_an_empty_object_copies_by_reference d l m h t ps :
  l ≠ m →
  h !! l = Some (CObj []) →
  h !! m = Some (CObj ps) →
  NoDup ps.*1 →
  Forall (λ k, plain_key k = true) ps.*1 →
  merge (S d) (VRef l) (VRef m) (mkState h t)
  = Ok VUndefined (mkState (<[l := CObj ps]> h) t).
Proof.
  intros Hlm Hl Hm Hnd Hplain. rewrite merge_unfold.
  assert (overrides h (VRef m) = false) as Hobj.
  { unfold overrides, Array_isArray, heap_cell. by rewrite Hm. }
  assert (∀ x ks, h !! x = Some (CObj ks) →
            Object_keys (VRef x) (mkState h t) = Ok ks.*1 (mkState h t))
    as Hkeys.
  { intros x ks Hx. unfold Object_keys, heap_cell. cbn [st_heap].
    by rewrite Hx. }
  pose proof (merge_copy_walk l m h t ps Hlm (lookup_lt_Some _ _ _ Hl) Hm
                (plain_keys_no_method _ Hplain) ps [] eq_refl Hnd) as Hwalk.
  rewrite (list_insert_id h l (CObj [])) in Hwalk by done.
  rewrite (bind_run _ _ _ h (mkState h t)) by done.
  rewrite Hobj.
  rewrite (bind_run _ _ _ _ _ (Hkeys _ _ Hl)).
  rewrite (bind_run _ _ _ tt (mkState h t)) by done.
  rewrite (bind_run _ _ _ _ _ (Hkeys _ _ Hm)).
  by rewrite (bind_run _ _ _ _ _ Hwalk).
Qed.

(** ** Lists *)

Lemma heap_extends_list h h' a items :
  heap_extends h h' → h !! a = Some (CArr items) → h' !! a = Some (CArr items).
Proof.
  intros Hext Ha. destruct (Hext _ _ Ha) as (c' & Hc' & Hcell).
  destruct c' as [|items']; [done|]. simpl in Hcell. by subst items'.
Qed.

Lemma items_walk ctx d field a items previousResult :
  callbacks_preserve ctx →
  ∀ n k acc st acc' st',
    st_heap st !! a = Some (CArr items) →
    forEach (item_callback (executeSelectionSet d) (executeSubSelectedArray d)
                           field (VRef a) previousResult ctx)
            (seq k n) acc st = Ok acc' st' →
    st_heap st' !! a = Some (CArr items)
    ∧ ∃ new, acc'.1 = acc.1 ++ new
             ∧ length new = n
             ∧ (∀ j, (j < n)%nat → items !! (k + j)%nat = Some VNull →
                     new !! j = Some VNull)
             ∧ (acc.2 = true → acc'.2 = true).
Proof.
  intros Hcb. destruct (engine_extends ctx Hcb d) as (Hss & _ & Harr).
  induction n as [|n IH]; intros k acc st acc' st' Ha Hrun.
  { apply ret_Ok in Hrun as [-> ->]. split; [done|]. exists [].
    rewrite app_nil_r. repeat split; [|done]. intros j Hj. lia. }
  cbn [seq forEach] in Hrun.
  apply bind_Ok in Hrun as (acc1 & st1 & Hstep & Hrest).
  assert (st_heap st1 !! a = Some (CArr items)
          ∧ ∃ y, acc1.1 = acc.1 ++ [y]
                 ∧ (items !! k = Some VNull → y = VNull)
                 ∧ (acc.2 = true → acc1.2 = true)) as (Ha1 & y & Hy & Hnull & Hflag).
  { unfold item_callback in Hstep.
    apply bind_Ok in Hstep as (item & st0 & Hitem & Hstep).
    pose proof (array_item_Ok _ _ _ _ _ Hitem) as ->.
    unfold array_item, heap_cell in Hitem. rewrite Ha in Hitem. simpl in Hitem.
    destruct (items !! k) as [x|] eqn:Hk; [|done]. injection Hitem as ->.
    destruct (strict_eq item VNull) eqn:Heq.
    { apply ret_Ok in Hstep as [-> ->]. split; [done|]. by exists VNull. }
    assert (Some item = Some VNull → False) as Hne.
    { intros [= ->]. by rewrite strict_eq_refl in Heq. }
    apply bind_Ok in Hstep as (h & st0 & [-> ->]%get_heap_Ok & Hstep).
    destruct (Array_isArray (st_heap st) item).
    - apply bind_Ok in Hstep as (nextItem & st0 & Hexec & [-> ->]%ret_Ok).
      split; [by eapply heap_extends_list, Ha; eapply Harr|].
      exists nextItem. by repeat split.
    - apply bind_Ok in Hstep as (selectionSet & st0 & Hsel & Hstep).
      assert (st0 = st) as ->.
      { destruct (field_selectionSet field);
          [by apply ret_Ok in Hsel as [_ ->] | done]. }
      apply bind_Ok in Hstep as (nextItem & st0 & Hexec & Hstep).
      apply bind_Ok in Hstep as (h & st2 & [-> ->]%get_heap_Ok & [-> ->]%ret_Ok).
      split; [by eapply heap_extends_list, Ha; eapply Hss|].
      exists nextItem. cbn [fst snd]. repeat split; [done|].
      intros ->. by destruct (_ && _). }
  destruct (IH _ _ _ _ _ Ha1 Hrest) as (Ha' & new & Hnew & Hlen & Hnulls & Hflag').
  split; [done|]. exists (y :: new). repeat split.
  - by rewrite Hnew, Hy, <- app_assoc.
  - simpl. by rewrite Hlen.
  - intros [|j] Hlt Hj.
    + rewrite Nat.add_0_r in Hj. simpl. by rewrite (Hnull Hj).
    + simpl. apply Hnulls; [lia|]. by rewrite <- Nat.add_succ_comm in Hj.
  - intros H. by apply Hflag', Hflag.
Qed.

(** X9. A list evaluation that returns builds one new list with an element
    for each element of the list it was given, [null] wherever that list has
    [null], and returns either this new list or the previous list, nothing
    else: the new list whenever the previous list is [null] or [undefined].
    The callbacks are taken to leave what is on the heap in place. *)
Theorem list_evaluation_shape
    d ctx field a items previousResult st v st' :
  callbacks_preserve ctx →
  st_heap st !! a = Some (CArr items) →
  executeSubSelectedArray d field (VRef a) previousResult ctx st = Ok v st' →
  ∃ h out,
    st_heap st' = h ++ [CArr out]
    ∧ length out = length items
    ∧ (∀ i, items !! i = Some VNull → out !! i = Some VNull)
    ∧ (v = previousResult ∨ v = VRef (length h))
    ∧ (nullish previousResult = true → v = VRef (length h)).
Proof.
  intros Hcb Ha Hrun. destruct d as [|d]; [done|].
  rewrite executeSubSelectedArray_unfold in Hrun.
  apply bind_Ok in Hrun as (h & st0 & [-> ->]%get_heap_Ok & Hrun).
  apply bind_Ok in Hrun as (out & st1 & Hloop & Hrun).
  apply bind_Ok in Hrun as (nextResult & st2 & Halloc & [-> ->]%ret_Ok).
  injection Halloc as <- <-.
  assert (array_length (st_heap st) (VRef a) = length items) as Hlen.
  { unfold array_length, heap_cell. by rewrite Ha. }
  rewrite Hlen in Hloop.
  destruct (items_walk ctx d field a items previousResult Hcb _ _ _ _ _ _
              Ha Hloop) as (_ & new & Hnew & Hlength & Hnulls & Hflag).
  simpl in Hnew. subst new. exists (st_heap st1), out.1. cbn [st_heap].
  split; [done|]. split; [done|]. split; [|split].
  - intros i Hi. apply Hnulls; [|done]. by eapply lookup_lt_Some.
  - destruct out.2; [by right | by left].
  - intros Hnull. cbn [snd] in Hflag. by rewrite (Hflag Hnull).
Qed.

Lemma null_items_walk exec_ss exec_arr field a items previousResult ctx st :
  st_heap st !! a = Some (CArr items) →
  Forall (eq VNull) items →
  ∀ n k acc, (k + n ≤ length items)%nat →
    forEach (item_callback exec_ss exec_arr field (VRef a) previousResult ctx)
            (seq k n) acc st
    = Ok (acc.1 ++ replicate n VNull, acc.2) st.
Proof.
  intros Ha Hnull. induction n as [|n IH]; intros k acc Hk.
  - simpl. unfold ret. rewrite app_nil_r. by destruct acc.
  - cbn [seq forEach]. unfold bind at 1.
    destruct (lookup_lt_is_Some_2 items k) as [x Hx]; [lia|].
    assert (x = VNull) as ->.
    { symmetry. eapply Forall_lookup_1; [exact Hnull | exact Hx]. }
    unfold item_callback. unfold bind at 1. unfold array_item, heap_cell.
    rewrite Ha. simpl. rewrite Hx. rewrite strict_eq_refl. unfold ret at 1.
    rewrite IH by lia. cbn [fst snd replicate].
    by rewrite <- app_assoc.
Qed.

(** X10. A list that holds nothing but [null] (the empty list is one) is
    never compared with the previous list: the evaluation allocates a copy
    and returns it only when the previous value is [null] or [undefined];
    any other previous value is returned as it is, whatever it holds. *)
Theorem list_of_nulls_returns_the_previous_value
    d ctx field a items previousResult h t :
  h !! a = Some (CArr items) →
  Forall (eq VNull) items →
  executeSubSelectedArray (S d) field (VRef a) previousResult ctx (mkState h t)
  = Ok (if nullish previousResult then VRef (length h) else previousResult)
       (mkState (h ++ [CArr items]) t).
Proof.
  intros Ha Hnull. rewrite executeSubSelectedArray_unfold.
  rewrite (bind_run _ _ _ h (mkState h t)) by done.
  assert (array_length h (VRef a) = length items) as ->.
  { unfold array_length, heap_cell. by rewrite Ha. }
  rewrite (bind_run _ _ _ _ _
             (null_items_walk _ _ field a items previousResult ctx
                (mkState h t) Ha Hnull (length items) 0
                ([], nullish previousResult) (le_n _))).
  cbn [fst snd app]. unfold bind, alloc, ret. cbn [st_heap st_trace].
  by rewrite (replicate_as_Forall_2 VNull (length items) items eq_refl Hnull).
Qed.

(** ** Inline fragments without a type condition *)



(** ** Leaf fields behind a fragment *)

Lemma alist_set_keys x k v ps :
  x ∈ (alist_set k v ps).*1 → x = k ∨ x ∈ ps.*1.
Proof.
  induction ps as [|[k0 v0] ps IH]; simpl.
  - intros [->|?%elem_of_nil]%elem_of_cons; [by left | done].
  - destruct (decide (k = k0)) as [->|Hne]; simpl.
    + intros [->|?]%elem_of_cons; [by left | right; by right].
    + intros [->|Hin]%elem_of_cons; [right; by left|].
      destruct (IH Hin); [by left | right; by right].
Qed.

Lemma alist_set_NoDup k v ps : NoDup ps.*1 → NoDup (alist_set k v ps).*1.
Proof.
  induction ps as [|[k0 v0] ps IH]; simpl; intros Hnd.
  - apply NoDup_singleton.
  - apply NoDup_cons in Hnd as [Hk0 Hnd].
    destruct (decide (k = k0)) as [->|Hne]; simpl.
    + by apply NoDup_cons.
    + apply NoDup_cons. split; [|by apply IH].
      intros [->|?]%alist_set_keys; done.
Qed.

Lemma stored_fields_NoDup ctx value fields ps :
  NoDup ps.*1 → NoDup (stored_fields ctx value fields ps).*1.
Proof.
  revert ps. induction fields as [|f fields IH]; intros ps Hnd; [done|].
  unfold stored_fields. cbn [foldl]. apply IH.
  destruct (_ && _); [by apply alist_set_NoDup | done].
Qed.

Lemma stored_fields_keys ctx value fields ps k :
  k ∈ (stored_fields ctx value fields ps).*1 →
  k ∈ ps.*1 ∨ ∃ f, f ∈ fields ∧ k = resultKeyNameFromField f.
Proof.
  revert ps. induction fields as [|f fields IH]; intros ps; [by left|].
  unfold stored_fields. cbn [foldl]. intros Hin.
  destruct (IH _ Hin) as [Hk|(f' & Hf' & ->)].
  - destruct (_ && _); [|by left].
    apply alist_set_keys in Hk as [->|Hk]; [|by left].
    right. exists f. split; [by left | done].
  - right. exists f'. split; [by right | done].
Qed.

(** X11. Leaf fields selected through an inline fragment that is included
    and whose type condition the matcher accepts reach the result: evaluated
    without previous result and result mapper, through a resolver that
    returns [value f] for each field and leaves the heap alone, the
    selection set that consists of the fragment yields a new object with the
    properties the fields yield when they are selected directly.  The result
    keys are taken to name no inherited member: a field stored under
    [hasOwnProperty] makes [merge] raise, and one under [__proto__] is not
    stored. *)
Theorem fields_of_a_matching_fragment_reach_the_result
    d ctx value typeCondition directives fields rootValue previousResult h t :
  resultMapper ctx = None →
  nullish previousResult = true →
  Forall (λ f, plain_key (resultKeyNameFromField f) = true) fields →
  shouldInclude (IsInlineFragment (Some typeCondition) directives
                                  (IsField <$> fields))
                (variableValues ctx) = true →
  fragmentMatcher ctx rootValue typeCondition (contextValue ctx)
                  (h ++ [CObj []]) = true →
  Forall (λ f, field_selectionSet f = None) fields →
  (∀ pre f post, fields = pre ++ f :: post → included ctx f = true →
     resolver ctx (field_name f) rootValue
              (argumentsObjectFromField f (variableValues ctx))
              (contextValue ctx) (field_info f)
              ((h ++ [CObj []]) ++ [CObj (stored_fields ctx value pre [])])
     = Ok (value f)
          ((h ++ [CObj []]) ++ [CObj (stored_fields ctx value pre [])])) →
  executeSelectionSet (S (S (S d)))
    [IsInlineFragment (Some typeCondition) directives (IsField <$> fields)]
    rootValue previousResult ctx (mkState h t)
  = Ok (VRef (length h))
       (mkState (h ++ [CObj (stored_fields ctx value fields []);
                       CObj (stored_fields ctx value fields [])])
          (t ++ flat_events ctx value (h ++ [CObj []]) rootValue
                            previousResult fields)).
Proof.
  intros Hmapper Hprev Hplain Hincl Hmatch Hleaf Hres.
  assert (allocated (h ++ [CObj []]) previousResult = true) as Halloc.
  { by destruct previousResult. }
  set (stored := stored_fields ctx value fields []).
  assert ("hasOwnProperty" ∉ stored.*1) as Hmethod.
  { intros [[]%elem_of_nil|(f & Hf & Hk)]%stored_fields_keys.
    rewrite Forall_forall in Hplain. specialize (Hplain f Hf).
    rewrite <- Hk in Hplain. by vm_compute in Hplain. }
  set (events := flat_events ctx value (h ++ [CObj []]) rootValue
                             previousResult fields).
  assert (executeSelectionSet (S (S d)) (IsField <$> fields) rootValue
            previousResult ctx (mkState (h ++ [CObj []]) t)
          = Ok (VRef (S (length h)))
               (mkState ((h ++ [CObj []]) ++ [CObj stored]) (t ++ events)))
    as Hinner.
  { rewrite executeSelectionSet_unfold, Hmapper. unfold bind, alloc.
    cbn [st_heap st_trace].
    rewrite (leaf_fields_walk d ctx value rootValue previousResult
               (h ++ [CObj []]) Halloc fields [] Hleaf Hres).
    rewrite Hprev. unfold ret. cbn [orb]. by rewrite length_app, Nat.add_1_r. }
  assert (merge (S (S d)) (VRef (length h)) (VRef (S (length h)))
            (mkState ((h ++ [CObj []]) ++ [CObj stored]) (t ++ events))
          = Ok VUndefined
               (mkState (h ++ [CObj stored; CObj stored]) (t ++ events)))
    as Hmerge.
  { set (H := (h ++ [CObj []]) ++ [CObj stored]).
    assert (H !! length h = Some (CObj [])) as Hl.
    { unfold H. rewrite <- app_assoc. by apply list_lookup_middle. }
    assert (H !! S (length h) = Some (CObj stored)) as Hm.
    { unfold H. apply list_lookup_middle. by rewrite length_app, Nat.add_1_r. }
    assert (length h ≠ S (length h)) as Hlm by lia.
    assert (NoDup stored.*1) as Hnd.
    { apply stored_fields_NoDup. apply NoDup_nil_2. }
    assert (overrides H (VRef (S (length h))) = false) as Hobj.
    { unfold overrides, Array_isArray, heap_cell. by rewrite Hm. }
    assert (∀ x ks, H !! x = Some (CObj ks) →
              Object_keys (VRef x) (mkState H (t ++ events))
              = Ok ks.*1 (mkState H (t ++ events))) as Hkeys.
    { intros x ks Hx. unfold Object_keys, heap_cell. cbn [st_heap].
      by rewrite Hx. }
    pose proof (merge_copy_walk (length h) (S (length h)) H (t ++ events)
                  stored Hlm (lookup_lt_Some _ _ _ Hl) Hm Hmethod stored []
                  eq_refl Hnd) as Hwalk.
    rewrite (list_insert_id H (length h) (CObj [])) in Hwalk by done.
    rewrite merge_unfold.
    rewrite (bind_run _ _ _ H (mkState H (t ++ events))) by done.
    rewrite Hobj.
    rewrite (bind_run _ _ _ _ _ (Hkeys _ _ Hl)).
    rewrite (bind_run _ _ _ tt (mkState H (t ++ events))) by done.
    rewrite (bind_run _ _ _ _ _ (Hkeys _ _ Hm)).
    rewrite (bind_run _ _ _ _ _ Hwalk). unfold ret. f_equal. f_equal.
    unfold H. rewrite <- !app_assoc. simpl.
    replace (length h) with (length h + 0)%nat at 1 by lia.
    by rewrite insert_app_r. }
  rewrite executeSelectionSet_unfold, Hmapper, Hprev.
  rewrite (bind_run _ _ _ (length h) (mkState (h ++ [CObj []]) t)) by done.
  cbn [forEach]. unfold selection_callback. rewrite Hincl. cbn [negb].
  unfold fragment_callback.
  rewrite (bind_run _ _ _ true
             (mkState (h ++ [CObj stored; CObj stored]) (t ++ events))).
  { done. }
  rewrite (bind_run _ _ _ true
             (mkState (h ++ [CObj stored; CObj stored]) (t ++ events)));
    [done|].
  rewrite (bind_run _ _ _ typeCondition (mkState (h ++ [CObj []]) t)) by done.
  rewrite (bind_run _ _ _ (h ++ [CObj []]) (mkState (h ++ [CObj []]) t)) by done.
  rewrite Hmatch.
  rewrite (bind_run _ _ _ _ _ Hinner).
  rewrite (bind_run _ _ _ _ _ Hmerge).
  unfold ret. by destruct (negb _).
Qed.

(** ** The further properties at work on the scenarios *)


Lemma resolver_is_called_once_per_field_in_order_witness :
  List.filter is_resolve
    (new_events (Scenario.start Scenario.flat_heap)
       (Scenario.final
          (executeSelectionSet 2 Scenario.flat_query (VRef 1) (VRef 0)
             (Scenario.context None Scenario.always)
             (Scenario.start Scenario.flat_heap))))
  = [EvResolve "a" (VRef 1) [] {| isLeaf := true; resultKey := "a" |};
     EvResolve "b" (VRef 1) [] {| isLeaf := true; resultKey := "b" |};
     EvResolve "c" (VRef 1) [] {| isLeaf := true; resultKey := "c" |}].
Proof.
  apply (resolver_is_called_once_per_field_in_order 2
           (Scenario.context None Scenario.always) Scenario.flat_fields
           (VRef 1) (VRef 0) (Scenario.start Scenario.flat_heap) (VRef 0)).
  - repeat constructor.
  - vm_compute. reflexivity.
Defined.

Lemma leaf_selection_set_result_witness :
  executeSelectionSet 2 Scenario.flat_query (VRef 1) (VRef 0)
    (Scenario.context None Scenario.always) (Scenario.start Scenario.flat_heap)
  = Ok (VRef 0)
       (mkState
          (Scenario.flat_heap
           ++ [CObj [("a", VNum 1); ("b", VNum 2); ("c", VNum 3)]])
          [EvResolve "a" (VRef 1) [] {| isLeaf := true; resultKey := "a" |};
           EvField (VRef 0) "a" (VNum 1) (VNum 1);
           EvResolve "b" (VRef 1) [] {| isLeaf := true; resultKey := "b" |};
           EvField (VRef 0) "b" (VNum 2) (VNum 2);
           EvResolve "c" (VRef 1) [] {| isLeaf := true; resultKey := "c" |};
           EvField (VRef 0) "c" (VNum 3) (VNum 3)]).
Proof.
  apply (leaf_selection_set_result 0 (Scenario.context None Scenario.always)
           Scenario.flat_value Scenario.flat_fields (VRef 1) (VRef 0)
           Scenario.flat_heap []).
  - reflexivity.
  - repeat constructor.
  - repeat constructor.
  - reflexivity.
  - intros pre f post _ _. reflexivity.
Defined.

Lemma evaluation_returns_previous_or_fresh_witness :
  (VRef 0 = VRef 0 ∨ VRef 0 = VRef (length Scenario.flat_heap))
  ∧ (nullish (VRef 0) = true → VRef 0 = VRef (length Scenario.flat_heap)).
Proof.
  apply (evaluation_returns_previous_or_fresh 2
           (Scenario.context None Scenario.always) Scenario.flat_query
           (VRef 1) (VRef 0) (Scenario.start Scenario.flat_heap) (VRef 0)
           (Scenario.final
              (executeSelectionSet 2 Scenario.flat_query (VRef 1) (VRef 0)
                 (Scenario.context None Scenario.always)
                 (Scenario.start Scenario.flat_heap)))).
  - reflexivity.
  - vm_compute. reflexivity.
Defined.

Lemma resolver_error_aborts_the_evaluation_witness :
  graphql 4 Scenario.strict_b
          (Scenario.query
             [Scenario.node "h" [Scenario.leaf "x"; Scenario.leaf "b"]])
          (VRef 0) VNull [] (Scenario.options VUndefined)
          (Scenario.start Scenario.missing_heap)
  = Err (Thrown (VStr "no b")).
Proof.
  eapply (resolver_error_aborts_the_evaluation
            (graphql_context Scenario.strict_b
               (Scenario.query
                  [Scenario.node "h" [Scenario.leaf "x"; Scenario.leaf "b"]])
               VNull [] (Scenario.options VUndefined))
            (mkEvaluation 4
               [Scenario.node "h" [Scenario.leaf "x"; Scenario.leaf "b"]]
               (VRef 0) VNull (Scenario.start Scenario.missing_heap))
            0 [Scenario.leaf "x"] (mkField "b" None [] [] None) []).
  - eapply (inside_field _ _ 2 []
              (mkField "h" None [] []
                 (Some [Scenario.leaf "x"; Scenario.leaf "b"]))
              []).
    + vm_compute. reflexivity.
    + reflexivity.
    + reflexivity.
    + vm_compute. reflexivity.
    + reflexivity.
    + eapply inside_object; [reflexivity | reflexivity |].
      vm_compute. apply inside_here.
  - vm_compute. reflexivity.
  - reflexivity.
  - vm_compute. reflexivity.
Defined.



Lemma merge_into_an_empty_object_copies_by_reference_witness :
  merge 1 (VRef 0) (VRef 1) (Scenario.start Scenario.copy_heap)
  = Ok VUndefined
       (Scenario.start
          [ CObj [("a", VNum 1); ("b", VRef 2)];
            CObj [("a", VNum 1); ("b", VRef 2)]; CObj [("c", VNum 1)] ]).
Proof.
  apply (merge_into_an_empty_object_copies_by_reference 0 0 1
           Scenario.copy_heap [] [("a", VNum 1); ("b", VRef 2)]).
  - lia.
  - reflexivity.
  - reflexivity.
  - apply (bool_decide_unpack _). vm_compute. exact I.
  - repeat constructor.
Defined.

Lemma named_spread_is_its_inline_fragment_witness :
  fragment_lookup "F" (fragmentMap Scenario.context_F)
  = Some Scenario.fragment_F
  ∧ executeSelectionSet 3
      ([Scenario.leaf "a"] ++ IsFragmentSpread "F" [] :: [Scenario.leaf "c"])
      (VRef 1) VNull Scenario.context_F (Scenario.start Scenario.flat_heap)
    = executeSelectionSet 3
        ([Scenario.leaf "a"]
         ++ IsInlineFragment (Some "T") [] [Scenario.leaf "b"]
            :: [Scenario.leaf "c"])
        (VRef 1) VNull Scenario.context_F (Scenario.start Scenario.flat_heap).
Proof.
  split; [reflexivity|].
  apply (named_spread_is_its_inline_fragment 3 Scenario.context_F (VRef 1)
           VNull [Scenario.leaf "a"] "F" [] Scenario.fragment_F
           [Scenario.leaf "c"]).
  reflexivity.
Defined.

Lemma list_evaluation_shape_witness :
  ∃ h out,
    st_heap
      (Scenario.final
         (executeSubSelectedArray 3 Scenario.list_field (VRef 4) VNull
            (Scenario.context None Scenario.always)
            (Scenario.start Scenario.null_item_heap)))
    = h ++ [CArr out]
    ∧ length out = length [VNull]
    ∧ (∀ i, [VNull] !! i = Some VNull → out !! i = Some VNull)
    ∧ (VRef 5 = VNull ∨ VRef 5 = VRef (length h))
    ∧ (nullish VNull = true → VRef 5 = VRef (length h)).
Proof.
  apply (list_evaluation_shape 3 (Scenario.context None Scenario.always)
           Scenario.list_field 4 [VNull] VNull
           (Scenario.start Scenario.null_item_heap) (VRef 5)).
  - apply read_root_context_preserves. intros m [=].
  - reflexivity.
  - vm_compute. reflexivity.
Defined.

Lemma list_of_nulls_returns_the_previous_value_witness :
  executeSubSelectedArray 1 Scenario.list_field (VRef 4) (VRef 1)
    (Scenario.context None Scenario.always)
    (Scenario.start Scenario.null_item_heap)
  = Ok (VRef 1) (Scenario.start (Scenario.null_item_heap ++ [CArr [VNull]])).
Proof.
  apply (list_of_nulls_returns_the_previous_value 0
           (Scenario.context None Scenario.always) Scenario.list_field 4
           [VNull] (VRef 1) Scenario.null_item_heap []).
  - reflexivity.
  - repeat constructor.
Defined.

Lemma fields_of_a_matching_fragment_reach_the_result_witness :
  executeSelectionSet 3 [IsInlineFragment (Some "T") [] Scenario.flat_query]
    (VRef 1) VNull (Scenario.context None Scenario.always)
    (Scenario.start Scenario.flat_heap)
  = Ok (VRef 2)
       (mkState
          (Scenario.flat_heap
           ++ [CObj [("a", VNum 1); ("b", VNum 2); ("c", VNum 3)];
               CObj [("a", VNum 1); ("b", VNum 2); ("c", VNum 3)]])
          [EvResolve "a" (VRef 1) [] {| isLeaf := true; resultKey := "a" |};
           EvField VNull "a" (VNum 1) VUndefined;
           EvResolve "b" (VRef 1) [] {| isLeaf := true; resultKey := "b" |};
           EvField VNull "b" (VNum 2) VUndefined;
           EvResolve "c" (VRef 1) [] {| isLeaf := true; resultKey := "c" |};
           EvField VNull "c" (VNum 3) VUndefined]).
Proof.
  apply (fields_of_a_matching_fragment_reach_the_result 0
           (Scenario.context None Scenario.always) Scenario.flat_value "T" []
           Scenario.flat_fields (VRef 1) VNull Scenario.flat_heap []).
  - reflexivity.
  - reflexivity.
  - repeat constructor.
  - reflexivity.
  - reflexivity.
  - repeat constructor.
  - intros pre f post _ _. reflexivity.
Defined.

